(** * cupy.cuda.memory_hook: the per-thread registry of memory hooks

    A shallow embedding of [cupy/cuda/memory_hook.py]: the thread-local
    [OrderedDict] of hooks, the context-manager protocol of [MemoryHook]
    ([__enter__] / [__exit__]) and its six callbacks, together with a model
    of the pool's [malloc] / [free] call sites that fan the callbacks out. *)

From Stdlib Require Import ZArith.
From stdpp Require Import gmap strings list fin_maps sorting.

Open Scope string_scope.
Open Scope Z_scope.
Open Scope list_scope.

(** ** [collections.OrderedDict] with string keys

    An association list in insertion order.  Keys are unique in every
    dictionary built with [setitem] from the empty one. *)
Module OrderedDict.
Abbreviation t V := (list (string * V)).

Section odict.
Context {V : Type}.
Local Abbreviation t := (t V).

(** [OrderedDict()] *)
Definition empty : t := [].

(** [d.get(k)] *)
Fixpoint get (k : string) (d : t) : option V :=
  match d with
  | [] => None
  | (k', v) :: d' => if decide (k = k') then Some v else get k d'
  end.

(** [k in d] *)
Definition contains (k : string) (d : t) : bool :=
  match get k d with Some _ => true | None => false end.

(** [d[k] = v]: a present key keeps its position, a new key goes last. *)
Fixpoint setitem (k : string) (v : V) (d : t) : t :=
  match d with
  | [] => [(k, v)]
  | (k', v') :: d' =>
      if decide (k = k') then (k, v) :: d' else (k', v') :: setitem k v d'
  end.

(** [del d[k]]: [None] stands for the [KeyError] of a missing key. *)
Fixpoint delitem (k : string) (d : t) : option t :=
  match d with
  | [] => None
  | (k', v') :: d' =>
      if decide (k = k') then Some d'
      else match delitem k d' with
           | Some d'' => Some ((k', v') :: d'')
           | None => None
           end
  end.

(** [list(d.keys())], [list(d.values())]: iteration order. *)
Definition keys (d : t) : list string := d.*1.
Definition values (d : t) : list V := d.*2.
End odict.
End OrderedDict.

(** ** Exceptions, results and the state-and-exception monad *)

(** [KeyError(arg)] is what the module itself raises; a hook callback may
    raise anything ([HookCallbackError]); [AllocationExhaustionError] comes
    from the device allocator. *)
Inductive exn : Type :=
  | KeyError (arg : string)
  | HookCallbackError (arg : string)
  | AllocationExhaustionError.

(** The error of registering a name twice, as [__enter__] builds it. *)
Definition DuplicateNameError (name : string) : exn :=
  KeyError ("memory hook " +:+ name +:+ " already exists").

(** The error of [del d[name]] on a missing name. *)
Definition NotFoundError (name : string) : exn := KeyError name.

Inductive result (X : Type) : Type :=
  | Return (x : X)
  | Raise (e : exn).
Arguments Return {X} x.
Arguments Raise {X} e.

Definition M (S X : Type) : Type := S → S * result X.

Definition ret {S X} (x : X) : M S X := λ s, (s, Return x).
Definition raise {S X} (e : exn) : M S X := λ s, (s, Raise e).
Definition bind {S X Y} (m : M S X) (k : X → M S Y) : M S Y :=
  λ s, match m s with
       | (s', Return x) => k x s'
       | (s', Raise e) => (s', Raise e)
       end.

Notation "'do' x <- m ; k" := (bind m (λ x, k))
  (at level 10, x name, m at level 100, k at level 200).
Notation "'do_' m ; k" := (bind m (λ _, k))
  (at level 10, m at level 100, k at level 200).

(** ** Hooks *)

(** The six callbacks of a hook. *)
Inductive callback_name : Type :=
  | AllocPreprocess | AllocPostprocess
  | MallocPreprocess | MallocPostprocess
  | FreePreprocess | FreePostprocess.

Global Instance callback_name_eq_dec : EqDecision callback_name.
Proof. solve_decision. Defined.

(** [**kwargs]: keyword arguments, all integers in this module. *)
Definition kwargs : Type := list (string * Z).

Section hooks.
(** [U] is the state a hook callback can read and write (counters, logs,
    profiles).  A callback returns [None] or raises; what it did to [U]
    before raising stays done. *)
Context {U : Type}.

Definition callback : Type := kwargs → U → U * option exn.

(** The body of a class deriving from [MemoryHook]: the attributes it
    defines itself. *)
Record class_body : Type := {
  cb_name : option string;
  cb_method : callback_name → option callback;
}.

(** A hook object: its identity, the [name] set on the instance (if any)
    and the classes of its method resolution order, most derived first,
    the base class [MemoryHook] left out. *)
Record hook : Type := {
  hook_id : nat;
  hook_dict_name : option string;
  hook_mro : list class_body;
}.

(** First class of the resolution order defining an attribute. *)
Fixpoint mro_lookup {A} (f : class_body → option A) (mro : list class_body)
  : option A :=
  match mro with
  | [] => None
  | c :: mro' => match f c with Some a => Some a | None => mro_lookup f mro' end
  end.
End hooks.
Arguments callback : clear implicits.
Arguments class_body : clear implicits.
Arguments hook : clear implicits.

(** ** The base class *)
Module MemoryHook.
Section base.
Context {U : Type}.

(** [name = 'MemoryHook'] *)
Definition default_name : string := "MemoryHook".

(** [self.name]: instance attribute, else the classes of the resolution
    order, else the attribute of the base class. *)
Definition name (self : hook U) : string :=
  match hook_dict_name self with
  | Some n => n
  | None => match mro_lookup cb_name (hook_mro self) with
            | Some n => n
            | None => default_name
            end
  end.

(** The six callbacks of the base class: [pass]. *)
Definition alloc_preprocess : callback U := λ _ u, (u, None).
Definition alloc_postprocess : callback U := λ _ u, (u, None).
Definition malloc_preprocess : callback U := λ _ u, (u, None).
Definition malloc_postprocess : callback U := λ _ u, (u, None).
Definition free_preprocess : callback U := λ _ u, (u, None).
Definition free_postprocess : callback U := λ _ u, (u, None).

Definition base_method (m : callback_name) : callback U :=
  match m with
  | AllocPreprocess => alloc_preprocess
  | AllocPostprocess => alloc_postprocess
  | MallocPreprocess => malloc_preprocess
  | MallocPostprocess => malloc_postprocess
  | FreePreprocess => free_preprocess
  | FreePostprocess => free_postprocess
  end.

(** [self.m]: method resolution. *)
Definition method (self : hook U) (m : callback_name) : callback U :=
  match mro_lookup (λ c, cb_method c m) (hook_mro self) with
  | Some f => f
  | None => base_method m
  end.
End base.
End MemoryHook.

(** ** Thread-local state *)

(** One invocation of a callback, as the fan-out makes it. *)
Record call {U : Type} : Type := {
  call_thread : nat;
  call_hook : hook U;
  call_method : callback_name;
  call_kwargs : kwargs;
}.
Arguments call : clear implicits.

(** The state of the process: [thread_local] holds, per thread, the
    attribute [memory_hooks] once it has been set; [pool] is the state of
    the memory pool; [obs] the state of the hooks; [calls] records every
    callback invocation, oldest first. *)
Record world {U P : Type} : Type := {
  thread_local : gmap nat (OrderedDict.t (hook U));
  pool : P;
  obs : U;
  calls : list (call U);
}.
Arguments world : clear implicits.

Section registry.
Context {U P : Type}.
Local Abbreviation world := (world U P).
Local Abbreviation registry := (OrderedDict.t (hook U)).

Definition set_thread_local (f : gmap nat registry → gmap nat registry)
  (w : world) : world :=
  {| thread_local := f (thread_local w); pool := pool w;
     obs := obs w; calls := calls w |}.

(** What thread [t] sees as its registry: empty until created. *)
Definition registry_of (t : nat) (w : world) : registry :=
  default OrderedDict.empty (thread_local w !! t).

(** [get_memory_hooks()] on thread [t].  The returned dictionary is the
    object stored in the thread's slot. *)
Definition get_memory_hooks (t : nat) : M world registry :=
  λ w, match thread_local w !! t with
       | None => (set_thread_local <[t := OrderedDict.empty]> w,
                  Return OrderedDict.empty)
       | Some d => (w, Return d)
       end.

(** Mutation of the dictionary held in the slot of thread [t]. *)
Definition store (t : nat) (d : registry) : M world unit :=
  λ w, (set_thread_local <[t := d]> w, Return tt).

(** [MemoryHook.__enter__(self)] on thread [t]. *)
Definition __enter__ (t : nat) (self : hook U) : M world (hook U) :=
  do memory_hooks <- get_memory_hooks t;
  if OrderedDict.contains (MemoryHook.name self) memory_hooks
  then raise (KeyError ("memory hook " +:+ MemoryHook.name self
                        +:+ " already exists"))
  else
    do_ store t (OrderedDict.setitem (MemoryHook.name self) self
                   memory_hooks);
    ret self.

(** [MemoryHook.__exit__(self, *_)] on thread [t]. *)
Definition __exit__ (t : nat) (self : hook U) : M world unit :=
  do memory_hooks <- get_memory_hooks t;
  match OrderedDict.delitem (MemoryHook.name self) memory_hooks with
  | None => raise (KeyError (MemoryHook.name self))
  | Some d => store t d
  end.

(** [with self: body] on thread [t]: [__exit__] runs however the body
    ends; it returns [None], so an exception of the body is raised again;
    an exception of [__exit__] itself takes its place. *)
Definition with_hook {X} (t : nat) (self : hook U)
  (body : hook U → M world X) : M world X :=
  λ w, match __enter__ t self w with
       | (w1, Raise e) => (w1, Raise e)
       | (w1, Return v) =>
           let '(w2, r) := body v w1 in
           match __exit__ t self w2 with
           | (w3, Raise e) => (w3, Raise e)
           | (w3, Return _) => (w3, r)
           end
       end.
End registry.

(** ** The pool's call sites *)

(** A block of pooled memory: pointer, rounded size, id of the handle. *)
Record BlockHandle : Type := {
  mem_ptr : Z;
  mem_size : Z;
  pmem_id : Z;
}.

(** Modelled from the spec: the collaborator allocator, which is not part
    of [memory_hook.py].  The spec lists [round_size], [find_cached_block],
    [allocate_from_device] (which can fail on exhaustion, [None] here) and
    [release_block_to_pool]; [wrap_pointer] is the handle the pool puts
    around a fresh pointer (the spec names the handle and its id, not how
    the id is drawn).  [P] is the state of the pool. *)
Record allocator {P : Type} : Type := {
  device_id : Z;
  round_size : Z → Z;
  find_cached_block : Z → P → option (BlockHandle * P);
  allocate_from_device : Z → Z → P → option Z * P;
  wrap_pointer : Z → Z → P → BlockHandle * P;
  release_block_to_pool : BlockHandle → P → P;
}.
Arguments allocator : clear implicits.

Section facade.
Context {U P : Type}.
Local Abbreviation world := (world U P).

Definition set_pool (p : P) (w : world) : world :=
  {| thread_local := thread_local w; pool := p; obs := obs w;
     calls := calls w |}.

Definition set_obs (u : U) (w : world) : world :=
  {| thread_local := thread_local w; pool := pool w; obs := u;
     calls := calls w |}.

Definition log_call (c : call U) (w : world) : world :=
  {| thread_local := thread_local w; pool := pool w; obs := obs w;
     calls := calls w ++ [c] |}.

(** Modelled from the spec: the fan-out of one callback over a list of
    hooks, first to last.  A callback that raises is not caught: the
    exception leaves the fan-out at once and the hooks after it are not
    called.  Callbacks act on the hook state [obs] only; what a callback
    that changes the registry would do to a running fan-out is left open by
    the spec and is outside this model. *)
Fixpoint fan_out (t : nat) (m : callback_name) (kw : kwargs)
  (hooks : list (hook U)) : M world unit :=
  match hooks with
  | [] => ret tt
  | h :: hooks' =>
      λ w,
        let w1 := log_call {| call_thread := t; call_hook := h;
                              call_method := m; call_kwargs := kw |} w in
        match MemoryHook.method h m kw (obs w1) with
        | (u, Some e) => (set_obs u w1, Raise e)
        | (u, None) => fan_out t m kw hooks' (set_obs u w1)
        end
  end.

(** Modelled from the spec: one fan-out to every hook of the calling
    thread's registry, in the order the registry iterates. *)
Definition notify (t : nat) (m : callback_name) (kw : kwargs) : M world unit :=
  do memory_hooks <- get_memory_hooks t;
  fan_out t m kw (OrderedDict.values memory_hooks).

(** Modelled from the spec: pool-acquire, [SingleDeviceMemoryPool.malloc],
    which is not part of [memory_hook.py] (its docstring gives the protocol
    in pseudo code).  After a failed device allocation the two
    post-callbacks still run, with 0 for the pointer and the handle id, and
    the allocation error is raised after them. *)
Definition malloc (A : allocator P) (t : nat) (size : Z)
  : M world BlockHandle :=
  let rounded := round_size A size in
  let dev := device_id A in
  do_ notify t MallocPreprocess
        [("device_id", dev); ("size", size); ("mem_size", rounded)];
  λ w,
    match find_cached_block A rounded (pool w) with
    | Some (blk, p) =>
        (do_ notify t MallocPostprocess
               [("device_id", dev); ("size", size); ("mem_size", rounded);
                ("mem_ptr", mem_ptr blk); ("pmem_id", pmem_id blk)];
         ret blk) (set_pool p w)
    | None =>
        (do_ notify t AllocPreprocess
               [("device_id", dev); ("mem_size", rounded)];
         λ w',
           match allocate_from_device A dev rounded (pool w') with
           | (Some ptr, p) =>
               let '(blk, p') := wrap_pointer A ptr rounded p in
               (do_ notify t AllocPostprocess
                      [("device_id", dev); ("mem_size", rounded);
                       ("mem_ptr", ptr)];
                do_ notify t MallocPostprocess
                      [("device_id", dev); ("size", size);
                       ("mem_size", rounded); ("mem_ptr", mem_ptr blk);
                       ("pmem_id", pmem_id blk)];
                ret blk) (set_pool p' w')
           | (None, p) =>
               (do_ notify t AllocPostprocess
                      [("device_id", dev); ("mem_size", rounded);
                       ("mem_ptr", 0)];
                do_ notify t MallocPostprocess
                      [("device_id", dev); ("size", size);
                       ("mem_size", rounded); ("mem_ptr", 0);
                       ("pmem_id", 0)];
                raise AllocationExhaustionError) (set_pool p w')
           end) w
    end.

(** Modelled from the spec: pool-release, [PooledMemory.free], which is not
    part of [memory_hook.py]. *)
Definition free (A : allocator P) (t : nat) (blk : BlockHandle)
  : M world unit :=
  let kw := [("device_id", device_id A); ("mem_size", mem_size blk);
             ("mem_ptr", mem_ptr blk); ("pmem_id", pmem_id blk)] in
  do_ notify t FreePreprocess kw;
  do_ (λ w, (set_pool (release_block_to_pool A blk (pool w)) w, Return tt));
  notify t FreePostprocess kw.

(** ** Threads running operations *)

(** What a thread can do with this module and with the pool. *)
Inductive op : Type :=
  | GetMemoryHooks
  | Enter (h : hook U)
  | Exit (h : hook U)
  | Malloc (size : Z)
  | Free (blk : BlockHandle).

(** One operation of thread [t]; the flag tells whether it returned. *)
Definition run_op (A : allocator P) (t : nat) (o : op) (w : world)
  : world * bool :=
  let ok {X} (r : world * result X) : world * bool :=
    (r.1, match r.2 with Return _ => true | Raise _ => false end) in
  match o with
  | GetMemoryHooks => ok (get_memory_hooks t w)
  | Enter h => ok (__enter__ t h w)
  | Exit h => ok (__exit__ t h w)
  | Malloc size => ok (malloc A t size w)
  | Free blk => ok (free A t blk w)
  end.

(** A schedule: which thread runs which operation, in order. *)
Fixpoint run (A : allocator P) (sched : list (nat * op)) (w : world) : world :=
  match sched with
  | [] => w
  | (t, o) :: sched' => run A sched' (run_op A t o w).1
  end.

(** The time of the last successful registration of each name on each
    thread, the time of an operation being its position in the schedule. *)
Definition stamps : Type := nat → string → nat.

Definition stamp (t : nat) (k : string) (now : nat) (s : stamps) : stamps :=
  λ t' k', if decide (t' = t ∧ k' = k) then now else s t' k'.

Fixpoint run_stamped (A : allocator P) (sched : list (nat * op)) (now : nat)
  (s : stamps) (w : world) : world * stamps :=
  match sched with
  | [] => (w, s)
  | (t, o) :: sched' =>
      let '(w', returned) := run_op A t o w in
      let s' := match o with
                | Enter h => if returned then stamp t (MemoryHook.name h) now s
                             else s
                | _ => s
                end in
      run_stamped A sched' (S now) s' w'
  end.
End facade.

(** The state of a process in which no thread has touched the module. *)
Definition initial_world {U P} (p : P) (u : U) : world U P :=
  {| thread_local := ∅; pool := p; obs := u; calls := [] |}.

(** The calls of a trace as (hook name, callback) pairs. *)
Definition called {U} (cs : list (call U)) : list (string * callback_name) :=
  (λ c, (MemoryHook.name (call_hook c), call_method c)) <$> cs.

(** The calls made between two states of one run. *)
Definition new_calls {U P} (w w' : world U P) : list (call U) :=
  drop (length (calls w)) (calls w').

(** ** Invariant of the registries *)

(** No two entries of a dictionary have the same name: the keys are
    pairwise distinct and every hook sits under its own name. *)
Definition registry_ok {U} (d : OrderedDict.t (hook U)) : Prop :=
  NoDup (OrderedDict.keys d) ∧
  Forall (λ e, MemoryHook.name e.2 = e.1) d.

Definition unique_names {U P} (w : world U P) : Prop :=
  ∀ t d, thread_local w !! t = Some d → registry_ok d.

(** A hook that keeps the [name] of the base class. *)
Definition keeps_default_name {U} (h : hook U) : Prop :=
  hook_dict_name h = None ∧ mro_lookup cb_name (hook_mro h) = None.

(** No callback of a hook registered on thread [t] raises. *)
Definition hooks_never_raise {U P} (t : nat) (w : world U P) : Prop :=
  ∀ h, h ∈ OrderedDict.values (registry_of t w) →
       ∀ m kw u, (MemoryHook.method h m kw u).2 = None.

(** ** What the call sites promise *)

(** The calls of one fan-out of [m] that goes through all of [hs]. *)
Definition fan_out_calls {U} (t : nat) (m : callback_name) (kw : kwargs)
  (hs : list (hook U)) : list (call U) :=
  (λ h, {| call_thread := t; call_hook := h; call_method := m;
           call_kwargs := kw |}) <$> hs.

(** The names of the hooks thread [t] has registered, in the order the
    registry iterates. *)
Definition hook_names {U P} (t : nat) (w : world U P) : list string :=
  MemoryHook.name <$> OrderedDict.values (registry_of t w).

(** One callback for each name, in the order of the names. *)
Definition phase_of (m : callback_name) (names : list string)
  : list (string * callback_name) :=
  (λ n, (n, m)) <$> names.

(** How many times callback [m] of the hook named [n] was called. *)
Definition invoked (n : string) (m : callback_name)
  (cs : list (string * callback_name)) : nat :=
  length (filter (λ c, c = (n, m)) cs).

(** The place of a callback in the protocol of pool-acquire. *)
Definition phase (m : callback_name) : nat :=
  match m with
  | MallocPreprocess => 0
  | AllocPreprocess => 1
  | AllocPostprocess => 2
  | MallocPostprocess => 3
  | FreePreprocess => 4
  | FreePostprocess => 5
  end.

(** Pool-acquire of [size] by thread [t] in state [w] follows the protocol:
    with a cached block, no [alloc_*] callback is called and
    [malloc_preprocess], [malloc_postprocess] are called once for every
    registered hook; without one, the four callbacks are called once for
    every registered hook, [malloc_preprocess] calls first, then
    [alloc_preprocess], [alloc_postprocess], [malloc_postprocess]. *)
Definition acquire_follows_protocol {U P} (A : allocator P) (t : nat)
  (size : Z) (w : world U P) : Prop :=
  let cs := called (new_calls w (malloc A t size w).1) in
  match find_cached_block A (round_size A size) (pool w) with
  | Some _ =>
      (∀ n, invoked n AllocPreprocess cs = 0%nat ∧
            invoked n AllocPostprocess cs = 0%nat) ∧
      (∀ n, n ∈ hook_names t w →
            invoked n MallocPreprocess cs = 1%nat ∧
            invoked n MallocPostprocess cs = 1%nat)
  | None =>
      (∀ n, n ∈ hook_names t w →
            invoked n MallocPreprocess cs = 1%nat ∧
            invoked n AllocPreprocess cs = 1%nat ∧
            invoked n AllocPostprocess cs = 1%nat ∧
            invoked n MallocPostprocess cs = 1%nat) ∧
      StronglySorted le (phase <$> cs.*2)
  end.

(** One fan-out of [m] by thread [t] in state [w] calls every hook the
    thread has registered, in the order of the registry. *)
Definition fan_out_visits_all {U P} (t : nat) (m : callback_name)
  (kw : kwargs) (w : world U P) : Prop :=
  new_calls w (notify t m kw w).1
  = fan_out_calls t m kw (OrderedDict.values (registry_of t w)).

(** Pool-release of [blk] by thread [t] in state [w] calls
    [free_preprocess] of every registered hook and then [free_postprocess]
    of every registered hook, both in the order of the registry. *)
Definition release_visits_all {U P} (A : allocator P) (t : nat)
  (blk : BlockHandle) (w : world U P) : Prop :=
  called (new_calls w (free A t blk w).1)
  = phase_of FreePreprocess (hook_names t w)
    ++ phase_of FreePostprocess (hook_names t w).

(** State [w'] comes from [w] by fan-outs of thread [t]: the thread's
    dictionary exists, nothing else changed in [thread_local], and the
    calls made are calls of thread [t], of callbacks in [ms], to hooks of
    its registry. *)
Definition notified {U P} (t : nat) (ms : list callback_name)
  (w w' : world U P) : Prop :=
  thread_local w' = <[t := registry_of t w]> (thread_local w) ∧
  ∃ new, calls w' = calls w ++ new ∧
         Forall (λ c, call_thread c = t ∧ call_method c ∈ ms ∧
                      call_hook c ∈ OrderedDict.values (registry_of t w)) new.

(** Every registry lists its names by the time of their registration,
    earliest first, all before [now]. *)
Definition registered_in_order {U P} (s : stamps) (now : nat)
  (w : world U P) : Prop :=
  ∀ t, StronglySorted lt (s t <$> OrderedDict.keys (registry_of t w)) ∧
       Forall (λ k, (s t k < now)%nat) (OrderedDict.keys (registry_of t w)).

(** ** A small pool and some hooks to run the module on *)

Record toy_pool : Type := {
  free_blocks : list BlockHandle;
  next_ptr : Z;
  next_id : Z;
  limit : Z;
}.

Fixpoint take_block (size : Z) (bs : list BlockHandle)
  : option (BlockHandle * list BlockHandle) :=
  match bs with
  | [] => None
  | b :: bs' =>
      if decide (mem_size b = size) then Some (b, bs')
      else match take_block size bs' with
           | Some (b', rest) => Some (b', b :: rest)
           | None => None
           end
  end.

(** First fit in the free list, bump allocation, sizes rounded to 512. *)
Definition toy_allocator : allocator toy_pool := {|
  device_id := 0;
  round_size := λ size, (size + 511) / 512 * 512;
  find_cached_block := λ size p,
    match take_block size (free_blocks p) with
    | Some (b, rest) =>
        Some (b, {| free_blocks := rest; next_ptr := next_ptr p;
                    next_id := next_id p; limit := limit p |})
    | None => None
    end;
  allocate_from_device := λ _ size p,
    if decide (next_ptr p + size ≤ limit p)
    then (Some (next_ptr p),
          {| free_blocks := free_blocks p; next_ptr := next_ptr p + size;
             next_id := next_id p; limit := limit p |})
    else (None, p);
  wrap_pointer := λ ptr size p,
    ({| mem_ptr := ptr; mem_size := size; pmem_id := next_id p |},
     {| free_blocks := free_blocks p; next_ptr := next_ptr p;
        next_id := next_id p + 1; limit := limit p |});
  release_block_to_pool := λ b p,
    {| free_blocks := b :: free_blocks p; next_ptr := next_ptr p;
       next_id := next_id p; limit := limit p |};
|}.

Definition empty_pool : toy_pool :=
  {| free_blocks := []; next_ptr := 4096; next_id := 1; limit := 8192 |}.

(** [MemoryHook()]: an instance of the base class itself. *)
Definition plain_hook (id : nat) : hook (list string) :=
  {| hook_id := id; hook_dict_name := None; hook_mro := [] |}.

(** An instance of a class that sets [name] and overrides no callback. *)
Definition named_hook (id : nat) (n : string) : hook (list string) :=
  {| hook_id := id; hook_dict_name := None;
     hook_mro := [{| cb_name := Some n; cb_method := λ _, None |}] |}.

(** An instance of a class that overrides nothing at all, not even
    [name]. *)
Definition derived_hook (id : nat) : hook (list string) :=
  {| hook_id := id; hook_dict_name := None;
     hook_mro := [{| cb_name := None; cb_method := λ _, None |}] |}.

(** An instance of a class whose callback [m] appends its name to the hook
    state and the others are inherited. *)
Definition recording_hook (id : nat) (n : string) (m : callback_name)
  : hook (list string) :=
  {| hook_id := id; hook_dict_name := None;
     hook_mro := [{| cb_name := Some n;
                     cb_method := λ m', if decide (m' = m)
                                        then Some (λ _ u, (u ++ [n], None))
                                        else None |}] |}.

(** An instance of a class whose callback [m] raises. *)
Definition raising_hook (id : nat) (n : string) (m : callback_name)
  : hook (list string) :=
  {| hook_id := id; hook_dict_name := None;
     hook_mro := [{| cb_name := Some n;
                     cb_method := λ m', if decide (m' = m)
                                        then Some (λ _ u,
                                               (u, Some (HookCallbackError n)))
                                        else None |}] |}.

Definition fresh_world : world (list string) toy_pool :=
  initial_world empty_pool [].

(** Thread 0 has entered the hooks of [hs], first to last. *)
Definition world_with (hs : list (hook (list string)))
  : world (list string) toy_pool :=
  run toy_allocator ((λ h, (0%nat, Enter h)) <$> hs) fresh_world.

(** Thread 0 has entered the hooks of [hs], acquired 100 bytes and
    released them: the pool holds one cached block of 512 bytes. *)
Definition world_with_cached_block (hs : list (hook (list string)))
  : world (list string) toy_pool :=
  match malloc toy_allocator 0 100 (world_with hs) with
  | (w, Return blk) => (free toy_allocator 0 blk w).1
  | (w, Raise _) => w
  end.

(** ** Several hooks at once *)

(** What [del d[k]] leaves of [d], whether it raises or not. *)
Definition discard {V} (k : string) (d : OrderedDict.t V) : OrderedDict.t V :=
  default d (OrderedDict.delitem k d).

(** The entries a list of hooks makes in a registry, each hook under its
    name. *)
Definition entries {U} (hs : list (hook U)) : OrderedDict.t (hook U) :=
  (λ h, (MemoryHook.name h, h)) <$> hs.

(** [with h1, h2, ..., hn: body] on thread [t]: the statement with several
    context managers is the nested one, the first manager outermost. *)
Fixpoint with_hooks {U P X} (t : nat) (hs : list (hook U))
  (body : M (world U P) X) : M (world U P) X :=
  match hs with
  | [] => body
  | h :: hs' => with_hook t h (λ _, with_hooks t hs' body)
  end.

(** Two states that differ at most in the dictionary of thread [t]. *)
Definition agree_off {U P} (t : nat) (w w' : world U P) : Prop :=
  (∀ t', t' ≠ t → thread_local w' !! t' = thread_local w !! t') ∧
  pool w' = pool w ∧ obs w' = obs w ∧ calls w' = calls w.

(** The three things a thread does with its registry. *)
Inductive registry_op {U : Type} : Type :=
  | GetHooks
  | EnterHook (h : hook U)
  | ExitHook (h : hook U).
Arguments registry_op : clear implicits.

(** One of them on thread [t]: the state after it and the exception it
    raised, if it raised. *)
Definition run_registry_op {U P} (t : nat) (o : registry_op U)
  (w : world U P) : world U P * option exn :=
  let outcome {X} (r : world U P * result X) : world U P * option exn :=
    (r.1, match r.2 with Return _ => None | Raise e => Some e end) in
  match o with
  | GetHooks => outcome (get_memory_hooks t w)
  | EnterHook h => outcome (__enter__ t h w)
  | ExitHook h => outcome (__exit__ t h w)
  end.

(** ** Replaying the calls of a trace *)

(** The calls [cs] made again, one after the other, from the hook state
    [u]: the hook state they end in and the exception of the first call
    that raises, where the replay stops.  Callbacks act on the hook state
    only, so replaying the calls an operation made from the hook state it
    started in tells whether a callback raised during the operation. *)
Fixpoint replay {U} (cs : list (call U)) (u : U) : U * option exn :=
  match cs with
  | [] => (u, None)
  | c :: cs' =>
      match MemoryHook.method (call_hook c) (call_method c) (call_kwargs c) u
      with
      | (u', Some e) => (u', Some e)
      | (u', None) => replay cs' u'
      end
  end.

(** The callbacks pool-acquire of [size] by thread [t] in state [w] goes
    through when none raises. *)
Definition acquire_sequence {U P} (A : allocator P) (t : nat) (size : Z)
  (w : world U P) : list (string * callback_name) :=
  match find_cached_block A (round_size A size) (pool w) with
  | Some _ => phase_of MallocPreprocess (hook_names t w)
              ++ phase_of MallocPostprocess (hook_names t w)
  | None => phase_of MallocPreprocess (hook_names t w)
            ++ phase_of AllocPreprocess (hook_names t w)
            ++ phase_of AllocPostprocess (hook_names t w)
            ++ phase_of MallocPostprocess (hook_names t w)
  end.

(** A run from [w] with result [res] has gone through the callbacks of
    [full] in order: through all of them when no callback raised, and up
    to the one that raised otherwise, the run then ending with the
    exception of that callback. *)
Definition fanned_out {U P X} (full : list (string * callback_name))
  (w : world U P) (res : world U P * result X) : Prop :=
  ∃ new o,
    calls res.1 = calls w ++ new ∧
    called new `prefix_of` full ∧
    replay new (obs w) = (obs res.1, o) ∧
    (o = None → called new = full) ∧
    (∀ e, o = Some e →
          res.2 = Raise e ∧
          ∃ cs c u,
            new = cs ++ [c] ∧ replay cs (obs w) = (u, None) ∧
            (MemoryHook.method (call_hook c) (call_method c)
               (call_kwargs c) u).2 = Some e).

(** The [with] statement over hook [h] with block [body] leaves the
    registry of thread [t] as it was, when the name of [h] was free. *)
Definition scope_restores_registry {U P X} (t : nat) (h : hook U)
  (body : hook U → M (world U P) X) (w : world U P) : Prop :=
  OrderedDict.get (MemoryHook.name h) (registry_of t w) = None →
  registry_of t (with_hook t h body w).1 = registry_of t w.

(** ** The dictionary *)

Section odict_facts.
Context {V : Type}.
Implicit Types (d : OrderedDict.t V) (k : string) (v : V).

Lemma get_None_keys k d :
  OrderedDict.get k d = None ↔ k ∉ OrderedDict.keys d.
Proof.
  induction d as [|[k' v'] d IH]; simpl.
  - split; [intros _; apply not_elem_of_nil | done].
  - rewrite not_elem_of_cons. destruct (decide (k = k')) as [->|Hne].
    + split; [done | intros [? _]; done].
    + rewrite IH. split; [done | intros [_ ?]; done].
Qed.

Lemma get_Some_elem k v d : OrderedDict.get k d = Some v → (k, v) ∈ d.
Proof.
  induction d as [|[k' v'] d IH]; simpl; [done|].
  destruct (decide (k = k')) as [->|].
  - intros [= ->]. left.
  - intros. right. auto.
Qed.

Lemma contains_get k d :
  OrderedDict.contains k d = false ↔ OrderedDict.get k d = None.
Proof. unfold OrderedDict.contains. destruct (OrderedDict.get k d); naive_solver. Qed.

Lemma setitem_fresh k v d :
  OrderedDict.get k d = None → OrderedDict.setitem k v d = d ++ [(k, v)].
Proof.
  induction d as [|[k' v'] d IH]; simpl; [done|].
  destruct (decide (k = k')); [done|]. intros. by rewrite IH.
Qed.

Lemma delitem_missing k d :
  OrderedDict.get k d = None → OrderedDict.delitem k d = None.
Proof.
  induction d as [|[k' v'] d IH]; simpl; [done|].
  destruct (decide (k = k')); [done|]. intros. by rewrite IH.
Qed.

Lemma delitem_present k v d :
  OrderedDict.get k d = Some v →
  ∃ d1 d2, d = d1 ++ (k, v) :: d2 ∧ (k ∉ OrderedDict.keys d1) ∧
           OrderedDict.delitem k d = Some (d1 ++ d2).
Proof.
  induction d as [|[k' v'] d IH]; simpl; [done|].
  destruct (decide (k = k')) as [->|Hne].
  - intros [= ->]. exists [], d. split_and!; [done| apply not_elem_of_nil |done].
  - intros Hg. destruct (IH Hg) as (d1 & d2 & -> & Hk & ->).
    exists ((k', v') :: d1), d2. split_and!; [done| |done].
    simpl. rewrite not_elem_of_cons. done.
Qed.

Lemma delitem_last k v d :
  OrderedDict.get k d = None →
  OrderedDict.delitem k (d ++ [(k, v)]) = Some d.
Proof.
  induction d as [|[k' v'] d IH]; simpl.
  - intros _. by rewrite decide_True.
  - destruct (decide (k = k')); [done|]. intros. by rewrite IH.
Qed.

Lemma get_app_fresh k v d :
  OrderedDict.get k d = None → OrderedDict.get k (d ++ [(k, v)]) = Some v.
Proof.
  induction d as [|[k' v'] d IH]; simpl.
  - intros _. by rewrite decide_True.
  - destruct (decide (k = k')); [done|]. auto.
Qed.
End odict_facts.

(** ** The operations of the module, step by step *)

Section registry_facts.
Context {U P : Type}.
Implicit Types (w : world U P) (h : hook U) (t : nat)
  (d : OrderedDict.t (hook U)).

Lemma world_eq w w' :
  thread_local w = thread_local w' → pool w = pool w' → obs w = obs w' →
  calls w = calls w' → w = w'.
Proof. destruct w, w'; simpl; congruence. Qed.

Lemma registry_of_slot t w d :
  thread_local w !! t = Some d → registry_of t w = d.
Proof. unfold registry_of. by intros ->. Qed.

Lemma registry_of_no_slot t w :
  thread_local w !! t = None → registry_of t w = [].
Proof. unfold registry_of. by intros ->. Qed.

Lemma registry_of_store t d w :
  registry_of t (set_thread_local <[t := d]> w) = d.
Proof. unfold registry_of. simpl. by rewrite lookup_insert_eq. Qed.

Lemma slot_store_other t t' d w :
  t ≠ t' → thread_local (set_thread_local <[t := d]> w) !! t' = thread_local w !! t'.
Proof. intros. simpl. by rewrite lookup_insert_ne. Qed.

Lemma store_twice t d d' w :
  set_thread_local <[t := d']> (set_thread_local <[t := d]> w)
  = set_thread_local <[t := d']> w.
Proof. apply world_eq; simpl; try done. apply insert_insert_eq. Qed.

Lemma store_same t d w :
  thread_local w !! t = Some d → set_thread_local <[t := d]> w = w.
Proof. intros. apply world_eq; simpl; try done. by apply insert_id. Qed.

(** [get_memory_hooks] returns what [registry_of] shows and leaves that
    view as it was. *)
Lemma get_memory_hooks_spec t w :
  (get_memory_hooks t w).2 = Return (registry_of t w) ∧
  registry_of t (get_memory_hooks t w).1 = registry_of t w ∧
  thread_local (get_memory_hooks t w).1 !! t = Some (registry_of t w).
Proof.
  unfold get_memory_hooks, registry_of.
  destruct (thread_local w !! t) as [d|] eqn:E; simpl.
  - by rewrite E.
  - by rewrite lookup_insert_eq.
Qed.

Lemma get_memory_hooks_run t w :
  get_memory_hooks t w
  = (set_thread_local <[t := registry_of t w]> w, Return (registry_of t w)).
Proof.
  unfold get_memory_hooks, registry_of.
  destruct (thread_local w !! t) as [d|] eqn:E; simpl; [|done].
  by rewrite store_same.
Qed.

Lemma enter_fresh t h w :
  OrderedDict.get (MemoryHook.name h) (registry_of t w) = None →
  __enter__ t h w
  = (set_thread_local
       <[t := registry_of t w ++ [(MemoryHook.name h, h)]]> w, Return h).
Proof.
  intros Hg. unfold __enter__, bind. rewrite get_memory_hooks_run.
  apply contains_get in Hg as Hc. rewrite Hc.
  unfold store, ret. by rewrite store_twice, setitem_fresh.
Qed.

Lemma enter_taken t h h' w :
  OrderedDict.get (MemoryHook.name h) (registry_of t w) = Some h' →
  __enter__ t h w = (w, Raise (DuplicateNameError (MemoryHook.name h))).
Proof.
  intros Hg. unfold __enter__, bind, get_memory_hooks, registry_of in *.
  destruct (thread_local w !! t) as [d|] eqn:E; simpl in *; [|done].
  unfold OrderedDict.contains. by rewrite Hg.
Qed.

Lemma exit_missing t h w :
  OrderedDict.get (MemoryHook.name h) (registry_of t w) = None →
  __exit__ t h w
  = (set_thread_local <[t := registry_of t w]> w,
     Raise (NotFoundError (MemoryHook.name h))).
Proof.
  intros Hg. unfold __exit__, bind. rewrite get_memory_hooks_run.
  by rewrite (delitem_missing _ _ Hg).
Qed.

Lemma exit_present t h h' w :
  OrderedDict.get (MemoryHook.name h) (registry_of t w) = Some h' →
  ∃ d1 d2,
    registry_of t w = d1 ++ (MemoryHook.name h, h') :: d2 ∧
    (MemoryHook.name h ∉ OrderedDict.keys d1) ∧
    __exit__ t h w = (set_thread_local <[t := d1 ++ d2]> w, Return tt).
Proof.
  intros Hg. destruct (delitem_present _ _ _ Hg) as (d1 & d2 & Hd & Hk & Hdel).
  exists d1, d2. split_and!; [done..|].
  unfold __exit__, bind. rewrite get_memory_hooks_run, Hdel.
  unfold store. by rewrite store_twice.
Qed.
End registry_facts.

(** ** The invariant is kept *)

Section invariant_facts.
Context {U P : Type}.
Implicit Types (w : world U P) (h : hook U) (t : nat)
  (d : OrderedDict.t (hook U)).

Lemma registry_ok_empty : registry_ok (@OrderedDict.empty (hook U)).
Proof. split; [apply NoDup_nil_2 | apply Forall_nil_2]. Qed.

Lemma registry_ok_snoc d h :
  registry_ok d → OrderedDict.get (MemoryHook.name h) d = None →
  registry_ok (d ++ [(MemoryHook.name h, h)]).
Proof.
  intros [Hnd Hk] Hg. apply get_None_keys in Hg. split.
  - unfold OrderedDict.keys in *. rewrite fmap_app. simpl.
    apply NoDup_app. split_and!; [done| |apply NoDup_singleton].
    intros k Hin ->%list_elem_of_singleton. done.
  - apply Forall_app. split; [done|]. by apply Forall_singleton.
Qed.

Lemma registry_ok_remove d1 d2 (e : string * hook U) :
  registry_ok (d1 ++ e :: d2) → registry_ok (d1 ++ d2).
Proof.
  intros [Hnd Hk]. split.
  - unfold OrderedDict.keys in *. rewrite fmap_app in *. simpl in Hnd.
    apply NoDup_app in Hnd as (H1 & H2 & H3).
    apply NoDup_cons in H3 as [_ H3].
    apply NoDup_app. split_and!; [done| |done].
    intros k Hin Hin'. apply (H2 k Hin). by right.
  - apply Forall_app in Hk as [H1 H2]. apply Forall_cons in H2 as [_ H2].
    apply Forall_app. done.
Qed.

Lemma registry_ok_of t w : unique_names w → registry_ok (registry_of t w).
Proof.
  intros Hw. unfold registry_of.
  destruct (thread_local w !! t) as [d|] eqn:E; simpl.
  - by apply (Hw t).
  - apply registry_ok_empty.
Qed.

Lemma unique_names_store t d w :
  unique_names w → registry_ok d →
  unique_names (set_thread_local <[t := d]> w).
Proof.
  intros Hw Hd t' d'. simpl. rewrite lookup_insert.
  case_decide; [by intros [= <-] | apply Hw].
Qed.

Lemma unique_names_get_memory_hooks t w :
  unique_names w → unique_names (get_memory_hooks t w).1.
Proof.
  intros Hw. rewrite get_memory_hooks_run. simpl.
  apply unique_names_store; [done | by apply registry_ok_of].
Qed.

Lemma unique_names_enter t h w :
  unique_names w → unique_names (__enter__ t h w).1.
Proof.
  intros Hw.
  destruct (OrderedDict.get (MemoryHook.name h) (registry_of t w)) eqn:Hg.
  - by rewrite (enter_taken _ _ _ _ Hg).
  - rewrite (enter_fresh _ _ _ Hg). simpl.
    apply unique_names_store; [done|].
    apply registry_ok_snoc; [by apply registry_ok_of | done].
Qed.

Lemma unique_names_exit t h w :
  unique_names w → unique_names (__exit__ t h w).1.
Proof.
  intros Hw.
  destruct (OrderedDict.get (MemoryHook.name h) (registry_of t w)) eqn:Hg.
  - destruct (exit_present _ _ _ _ Hg) as (d1 & d2 & Hd & _ & ->). simpl.
    apply unique_names_store; [done|].
    apply (registry_ok_remove d1 d2 (MemoryHook.name h, h0)).
    rewrite <- Hd. by apply registry_ok_of.
  - rewrite (exit_missing _ _ _ Hg). simpl.
    apply unique_names_store; [done | by apply registry_ok_of].
Qed.

Lemma unique_names_initial (p : P) (u : U) : unique_names (initial_world p u).
Proof. intros t d. simpl. by rewrite lookup_empty. Qed.
End invariant_facts.

(** ** Registration and unregistration *)

(** C1.  Entering a hook whose name is already registered on the thread
    raises the duplicate-name [KeyError]; the state of the process is the
    one before the call, so the hook registered under that name is still
    there and nothing was registered. *)
Theorem enter_duplicate_name_fails {U P} (t : nat) (h h' : hook U)
  (w : world U P) :
  OrderedDict.get (MemoryHook.name h) (registry_of t w) = Some h' →
  (__enter__ t h w).2 = Raise (DuplicateNameError (MemoryHook.name h)) ∧
  (__enter__ t h w).1 = w ∧
  OrderedDict.get (MemoryHook.name h) (registry_of t (__enter__ t h w).1)
  = Some h' ∧
  ∀ t', registry_of t' (__enter__ t h w).1 = registry_of t' w.
Proof.
  intros Hg. rewrite (enter_taken _ _ _ _ Hg). simpl. done.
Qed.

Lemma enter_duplicate_name_fails_witness :
  OrderedDict.get "logger" (registry_of 0 (world_with [named_hook 1 "logger"]))
  = Some (named_hook 1 "logger") ∧
  (__enter__ 0 (named_hook 2 "logger") (world_with [named_hook 1 "logger"])).2
  = Raise (KeyError "memory hook logger already exists").
Proof.
  split; [reflexivity|].
  apply (enter_duplicate_name_fails 0 (named_hook 2 "logger")
           (named_hook 1 "logger") (world_with [named_hook 1 "logger"])).
  reflexivity.
Defined.

(** C4.  Leaving a hook whose name is not registered on the thread raises
    [KeyError(name)]; every thread's registry reads as before, the rest of
    the state too, and the state is the very same one when the thread had
    its dictionary already. *)
Theorem exit_unregistered_name_fails {U P} (t : nat) (h : hook U)
  (w : world U P) :
  OrderedDict.get (MemoryHook.name h) (registry_of t w) = None →
  (__exit__ t h w).2 = Raise (NotFoundError (MemoryHook.name h)) ∧
  (∀ t', registry_of t' (__exit__ t h w).1 = registry_of t' w) ∧
  (∀ t', t' ≠ t →
     thread_local (__exit__ t h w).1 !! t' = thread_local w !! t') ∧
  (is_Some (thread_local w !! t) → (__exit__ t h w).1 = w) ∧
  pool (__exit__ t h w).1 = pool w ∧
  obs (__exit__ t h w).1 = obs w ∧
  calls (__exit__ t h w).1 = calls w.
Proof.
  intros Hg. rewrite (exit_missing _ _ _ Hg). simpl.
  split_and!; try done.
  - intros t'. unfold registry_of at 1. simpl. rewrite lookup_insert.
    case_decide; [by subst | done].
  - intros t' Hne. by rewrite lookup_insert_ne.
  - intros [d Hd]. rewrite (registry_of_slot _ _ _ Hd). by apply store_same.
Qed.

Lemma exit_unregistered_name_fails_witness :
  (__exit__ 0 (named_hook 2 "tracer") (world_with [named_hook 1 "logger"])).2
  = Raise (KeyError "tracer") ∧
  registry_of 0
    (__exit__ 0 (named_hook 2 "tracer") (world_with [named_hook 1 "logger"])).1
  = [("logger", named_hook 1 "logger")].
Proof.
  pose proof (exit_unregistered_name_fails 0 (named_hook 2 "tracer")
                (world_with [named_hook 1 "logger"]) eq_refl) as (H1 & H2 & _).
  split; [exact H1 | exact (H2 0%nat)].
Defined.

(** C7.  Creating a thread's registry, registering and unregistering keep
    the names of every registry pairwise distinct (and every hook under its
    own name). *)
Theorem registry_operations_keep_names_unique {U P} (t : nat) (h : hook U)
  (w : world U P) :
  unique_names w →
  unique_names (get_memory_hooks t w).1 ∧
  unique_names (__enter__ t h w).1 ∧
  unique_names (__exit__ t h w).1.
Proof.
  intros Hw. split_and!.
  - by apply unique_names_get_memory_hooks.
  - by apply unique_names_enter.
  - by apply unique_names_exit.
Qed.

Lemma registry_operations_keep_names_unique_witness :
  unique_names (world_with [named_hook 1 "logger"]) ∧
  unique_names (__enter__ 0 (named_hook 2 "logger")
                  (world_with [named_hook 1 "logger"])).1.
Proof.
  assert (Hw : unique_names (world_with [named_hook 1 "logger"])).
  { unfold world_with. simpl. apply unique_names_enter.
    apply unique_names_initial. }
  split; [exact Hw|].
  exact (proj1 (proj2 (registry_operations_keep_names_unique 0
                         (named_hook 2 "logger") _ Hw))).
Defined.

(** C9.  A hook that sets no [name] of its own, whatever its class, is
    named ['MemoryHook']; while one such hook is registered on a thread,
    entering another one there raises the duplicate-name [KeyError] and
    changes nothing. *)
Theorem default_name_is_shared {U P} (t : nat) (h1 h2 : hook U)
  (w : world U P) :
  keeps_default_name h1 → keeps_default_name h2 →
  OrderedDict.get (MemoryHook.name h1) (registry_of t w) = Some h1 →
  MemoryHook.name h1 = "MemoryHook" ∧
  MemoryHook.name h2 = "MemoryHook" ∧
  __enter__ t h2 w
  = (w, Raise (KeyError "memory hook MemoryHook already exists")).
Proof.
  intros [Hd1 Hc1] [Hd2 Hc2] Hg.
  assert (Hn1 : MemoryHook.name h1 = "MemoryHook")
    by (unfold MemoryHook.name; by rewrite Hd1, Hc1).
  assert (Hn2 : MemoryHook.name h2 = "MemoryHook")
    by (unfold MemoryHook.name; by rewrite Hd2, Hc2).
  split_and!; [done..|].
  rewrite Hn1, <- Hn2 in Hg. rewrite (enter_taken _ _ _ _ Hg).
  unfold DuplicateNameError. by rewrite Hn2.
Qed.

Lemma default_name_is_shared_witness :
  (__enter__ 0 (plain_hook 1) fresh_world).2 = Return (plain_hook 1) ∧
  __enter__ 0 (derived_hook 2) (world_with [plain_hook 1])
  = (world_with [plain_hook 1],
     Raise (KeyError "memory hook MemoryHook already exists")).
Proof.
  split; [reflexivity|].
  refine (proj2 (proj2 (default_name_is_shared 0 (plain_hook 1)
                          (derived_hook 2) (world_with [plain_hook 1])
                          _ _ _))).
  - split; reflexivity.
  - split; reflexivity.
  - reflexivity.
Defined.

(** C10.  [__exit__] deletes by name, whatever is there.  With no entry
    under the hook's name it raises [KeyError(name)], also at the end of a
    [with] block whose body removed the entry; with another hook under the
    name it removes that hook's entry; and once it has returned, a second
    [__exit__] raises. *)
Theorem exit_deletes_by_name {U P} (t : nat) (h : hook U) (w : world U P) :
  unique_names w →
  (OrderedDict.get (MemoryHook.name h) (registry_of t w) = None →
   (__exit__ t h w).2 = Raise (KeyError (MemoryHook.name h))) ∧
  (∀ X (body : hook U → M (world U P) X) w0 w1 r,
     __enter__ t h w0 = (w1, Return h) → body h w1 = (w, r) →
     OrderedDict.get (MemoryHook.name h) (registry_of t w) = None →
     (with_hook t h body w0).2 = Raise (KeyError (MemoryHook.name h))) ∧
  (∀ h', OrderedDict.get (MemoryHook.name h) (registry_of t w) = Some h' →
     (__exit__ t h w).2 = Return tt ∧
     OrderedDict.get (MemoryHook.name h) (registry_of t (__exit__ t h w).1)
     = None ∧
     ∃ d1 d2, registry_of t w = d1 ++ (MemoryHook.name h, h') :: d2 ∧
              registry_of t (__exit__ t h w).1 = d1 ++ d2) ∧
  ((__exit__ t h w).2 = Return tt →
   (__exit__ t h (__exit__ t h w).1).2 = Raise (KeyError (MemoryHook.name h))).
Proof.
  intros Hw.
  assert (Hsome : ∀ h',
    OrderedDict.get (MemoryHook.name h) (registry_of t w) = Some h' →
    (__exit__ t h w).2 = Return tt ∧
    OrderedDict.get (MemoryHook.name h) (registry_of t (__exit__ t h w).1)
    = None ∧
    ∃ d1 d2, registry_of t w = d1 ++ (MemoryHook.name h, h') :: d2 ∧
             registry_of t (__exit__ t h w).1 = d1 ++ d2).
  { intros h' Hg. destruct (exit_present _ _ _ _ Hg) as (d1 & d2 & Hd & Hk & ->).
    simpl. rewrite registry_of_store. split_and!; [done| |by exists d1, d2].
    apply get_None_keys. pose proof (registry_ok_of t w Hw) as [Hnd _].
    rewrite Hd in Hnd. unfold OrderedDict.keys in *.
    rewrite fmap_app in *. simpl in Hnd.
    apply NoDup_app in Hnd as (_ & Hnot & Hnd2).
    apply NoDup_cons in Hnd2 as [Hk2 _].
    rewrite elem_of_app. intros [?|?]; done. }
  split_and!.
  - intros Hg. by rewrite (exit_missing _ _ _ Hg).
  - intros X body w0 w1 r He Hb Hg. unfold with_hook.
    rewrite He, Hb, (exit_missing _ _ _ Hg). done.
  - exact Hsome.
  - intros Hret.
    destruct (OrderedDict.get (MemoryHook.name h) (registry_of t w)) as [h'|]
      eqn:Hg.
    + destruct (Hsome h' eq_refl) as (_ & Hnone & _).
      by rewrite (exit_missing _ _ _ Hnone).
    + rewrite (exit_missing _ _ _ Hg) in Hret. done.
Qed.

Lemma exit_deletes_by_name_witness :
  (__exit__ 0 (named_hook 2 "tracer") (world_with [named_hook 1 "logger"])).2
  = Raise (KeyError "tracer") ∧
  (with_hook 0 (named_hook 2 "tracer") (λ h, __exit__ 0 h)
     (world_with [named_hook 1 "logger"])).2
  = Raise (KeyError "tracer") ∧
  OrderedDict.get "logger"
    (registry_of 0
       (__exit__ 0 (named_hook 2 "logger")
          (world_with [named_hook 1 "logger"])).1)
  = None ∧
  (__exit__ 0 (named_hook 1 "logger")
     (__exit__ 0 (named_hook 1 "logger")
        (world_with [named_hook 1 "logger"])).1).2
  = Raise (KeyError "logger").
Proof.
  assert (Hw : unique_names (world_with [named_hook 1 "logger"])).
  { unfold world_with. simpl. apply unique_names_enter.
    apply unique_names_initial. }
  split_and!.
  - exact (proj1 (exit_deletes_by_name 0 (named_hook 2 "tracer") _ Hw)
             eq_refl).
  - refine (proj1 (proj2 (exit_deletes_by_name 0 (named_hook 2 "tracer")
              (__exit__ 0 (named_hook 2 "tracer")
                 (__enter__ 0 (named_hook 2 "tracer")
                    (world_with [named_hook 1 "logger"])).1).1 _))
              unit (λ h, __exit__ 0 h) (world_with [named_hook 1 "logger"])
              (__enter__ 0 (named_hook 2 "tracer")
                 (world_with [named_hook 1 "logger"])).1
              (Return tt) _ _ _).
    + by apply unique_names_exit, unique_names_enter.
    + reflexivity.
    + reflexivity.
    + reflexivity.
  - exact (proj1 (proj2 (proj1 (proj2 (proj2 (exit_deletes_by_name 0
             (named_hook 2 "logger") _ Hw))) (named_hook 1 "logger")
             eq_refl))).
  - exact (proj2 (proj2 (proj2 (exit_deletes_by_name 0
             (named_hook 1 "logger") _ Hw))) eq_refl).
Defined.

(** C8.  The six callbacks of the base class return [None] and leave the
    state as it is, whatever the keyword arguments; so does any callback a
    hook's classes do not override. *)
Theorem default_callbacks_do_nothing {U} (kw : kwargs) (u : U) :
  MemoryHook.alloc_preprocess kw u = (u, None) ∧
  MemoryHook.alloc_postprocess kw u = (u, None) ∧
  MemoryHook.malloc_preprocess kw u = (u, None) ∧
  MemoryHook.malloc_postprocess kw u = (u, None) ∧
  MemoryHook.free_preprocess kw u = (u, None) ∧
  MemoryHook.free_postprocess kw u = (u, None) ∧
  ∀ (h : hook U) (m : callback_name),
    mro_lookup (λ c, cb_method c m) (hook_mro h) = None →
    MemoryHook.method h m kw u = (u, None).
Proof.
  split_and!; try reflexivity.
  intros h m Hm. unfold MemoryHook.method. rewrite Hm. by destruct m.
Qed.

Lemma default_callbacks_do_nothing_witness :
  MemoryHook.method (recording_hook 1 "logger" MallocPreprocess)
    FreePostprocess [("device_id", 0)] ["seen"]
  = (["seen"], None) ∧
  MemoryHook.method (recording_hook 1 "logger" MallocPreprocess)
    MallocPreprocess [("device_id", 0)] ["seen"]
  = (["seen"; "logger"], None).
Proof.
  split; [|reflexivity].
  apply (default_callbacks_do_nothing [("device_id", 0)] ["seen"]).
  reflexivity.
Defined.

(** ** Fan-outs *)

Section fan_out_facts.
Context {U P : Type}.
Implicit Types (w : world U P) (h : hook U) (t : nat) (m : callback_name)
  (kw : kwargs) (hs : list (hook U)).

Lemma new_calls_app w w' new :
  calls w' = calls w ++ new → new_calls w w' = new.
Proof. unfold new_calls. intros ->. by rewrite drop_app_length. Qed.

Lemma new_calls_same w w' : calls w' = calls w → new_calls w w' = [].
Proof. unfold new_calls. intros ->. by rewrite drop_all. Qed.

(** A fan-out touches neither the registries nor the pool, and calls the
    hooks of a prefix of its list, in order: the whole list when it
    returns. *)
Lemma fan_out_frame t m kw hs w :
  thread_local (fan_out t m kw hs w).1 = thread_local w ∧
  pool (fan_out t m kw hs w).1 = pool w ∧
  ∃ n, calls (fan_out t m kw hs w).1
       = calls w ++ fan_out_calls t m kw (take n hs) ∧
       ((fan_out t m kw hs w).2 = Return tt → n = length hs) ∧
       (∀ e, (fan_out t m kw hs w).2 = Raise e →
             (0 < n)%nat ∧
             ∃ h u, hs !! pred n = Some h ∧
                    (MemoryHook.method h m kw u).2 = Some e).
Proof.
  revert w. induction hs as [|h hs IH]; intros w; simpl.
  - split_and!; [done..|]. exists 0%nat. rewrite app_nil_r.
    split_and!; [done..|]. intros e. discriminate.
  - destruct (MemoryHook.method h m kw (obs w)) as [u [e|]] eqn:Hm; simpl.
    + split_and!; [done..|]. exists 1%nat. simpl.
      split_and!; [done| discriminate |]. intros e' [= <-].
      split; [lia|]. exists h, (obs w). by rewrite Hm.
    + match goal with |- context [fan_out t m kw hs ?w1] =>
        destruct (IH w1) as (Ht & Hp & n & Hc & Hn & He) end.
      split_and!; [done..|]. exists (S n). rewrite Hc. simpl.
      rewrite <- app_assoc. split_and!; [done| |].
      * intros Hr. by rewrite (Hn Hr).
      * intros e Hr. destruct (He e Hr) as (Hpos & h' & u' & Hl & Hh').
        split; [lia|]. exists h', u'. split; [|done].
        destruct n as [|n']; [lia|]. done.
Qed.

(** When no callback raises, the fan-out returns after calling all. *)
Lemma fan_out_returns t m kw hs w :
  (∀ h, h ∈ hs → ∀ m kw u, (MemoryHook.method h m kw u).2 = None) →
  (fan_out t m kw hs w).2 = Return tt ∧
  calls (fan_out t m kw hs w).1 = calls w ++ fan_out_calls t m kw hs.
Proof.
  revert w. induction hs as [|h hs IH]; intros w Hok; simpl.
  - by rewrite app_nil_r.
  - pose proof (Hok h ltac:(left) m kw (obs w)) as Hh.
    destruct (MemoryHook.method h m kw (obs w)) as [u [e|]]; [done|].
    match goal with |- context [fan_out t m kw hs ?w1] =>
      destruct (IH w1) as [Hr Hc] end.
    { intros h' Hin. apply Hok. by right. }
    split; [done|]. rewrite Hc. simpl. by rewrite <- app_assoc.
Qed.

Lemma notify_run t m kw w :
  notify t m kw w
  = fan_out t m kw (OrderedDict.values (registry_of t w))
      (set_thread_local <[t := registry_of t w]> w).
Proof. unfold notify, bind. by rewrite get_memory_hooks_run. Qed.

Lemma notify_frame t m kw w :
  thread_local (notify t m kw w).1
  = <[t := registry_of t w]> (thread_local w) ∧
  pool (notify t m kw w).1 = pool w ∧
  ∃ n, calls (notify t m kw w).1
       = calls w
         ++ fan_out_calls t m kw (take n (OrderedDict.values (registry_of t w))) ∧
       ((notify t m kw w).2 = Return tt →
        n = length (OrderedDict.values (registry_of t w))) ∧
       (∀ e, (notify t m kw w).2 = Raise e →
             (0 < n)%nat ∧
             ∃ h u, OrderedDict.values (registry_of t w) !! pred n = Some h ∧
                    (MemoryHook.method h m kw u).2 = Some e).
Proof.
  rewrite notify_run.
  destruct (fan_out_frame t m kw (OrderedDict.values (registry_of t w))
              (set_thread_local <[t := registry_of t w]> w))
    as (Ht & Hp & n & Hc & Hn & He).
  split_and!; [done..|]. by exists n.
Qed.

Lemma notify_registry t m kw w t' :
  registry_of t' (notify t m kw w).1 = registry_of t' w.
Proof.
  destruct (notify_frame t m kw w) as (Ht & _).
  unfold registry_of at 1. rewrite Ht, lookup_insert.
  case_decide; [by subst | done].
Qed.

Lemma notify_returns t m kw w :
  hooks_never_raise t w →
  (notify t m kw w).2 = Return tt ∧
  calls (notify t m kw w).1
  = calls w ++ fan_out_calls t m kw (OrderedDict.values (registry_of t w)) ∧
  hooks_never_raise t (notify t m kw w).1.
Proof.
  intros Hok.
  destruct (fan_out_returns t m kw (OrderedDict.values (registry_of t w))
              (set_thread_local <[t := registry_of t w]> w) Hok) as [Hr Hc].
  split_and!.
  - by rewrite notify_run.
  - by rewrite notify_run.
  - unfold hooks_never_raise. by rewrite notify_registry.
Qed.

Lemma called_fan_out_calls t m kw hs :
  called (fan_out_calls t m kw hs) = phase_of m (MemoryHook.name <$> hs).
Proof.
  unfold called, fan_out_calls, phase_of. rewrite <- !list_fmap_compose.
  by apply list_fmap_ext.
Qed.

(** *** States reached by fan-outs *)

Lemma notified_refl t ms w :
  is_Some (thread_local w !! t) → notified t ms w w.
Proof.
  intros [d Hd]. split.
  - rewrite (registry_of_slot _ _ _ Hd). by rewrite insert_id.
  - exists []. by rewrite app_nil_r.
Qed.

Lemma notified_registry t ms w w' t' :
  notified t ms w w' → registry_of t' w' = registry_of t' w.
Proof.
  intros [Ht _]. unfold registry_of at 1. rewrite Ht, lookup_insert.
  case_decide; [by subst | done].
Qed.

Lemma notified_notify t m ms kw w :
  m ∈ ms → notified t ms w (notify t m kw w).1.
Proof.
  intros Hm. destruct (notify_frame t m kw w) as (Ht & _ & n & Hc & _ & _).
  split; [done|]. eexists. split; [exact Hc|].
  unfold fan_out_calls. apply Forall_fmap, Forall_forall. intros h Hin. simpl.
  split_and!; [done..|]. by eapply subseteq_take.
Qed.

Lemma notified_trans t ms w w1 w2 :
  notified t ms w w1 → notified t ms w1 w2 → notified t ms w w2.
Proof.
  intros H1 H2. pose proof (notified_registry t ms w w1 t H1) as Hr.
  destruct H1 as (Ht1 & new1 & Hc1 & Hf1), H2 as (Ht2 & new2 & Hc2 & Hf2).
  split.
  - rewrite Ht2, Ht1, Hr. apply insert_insert_eq.
  - exists (new1 ++ new2). rewrite Hc2, Hc1, app_assoc. split; [done|].
    apply Forall_app. split; [done|]. by rewrite Hr in Hf2.
Qed.

Lemma notified_set_pool t ms w w' (p : P) :
  notified t ms w w' → notified t ms w (set_pool p w').
Proof. intros [Ht Hc]. by split. Qed.

Lemma notified_from_set_pool t ms w w' (p : P) :
  notified t ms (set_pool p w) w' → notified t ms w w'.
Proof. intros [Ht Hc]. by split. Qed.
End fan_out_facts.

(** ** Pool-acquire and pool-release *)

Section call_site_facts.
Context {U P : Type}.
Implicit Types (w : world U P) (h : hook U) (t : nat) (m : callback_name)
  (kw : kwargs) (A : allocator P).

Lemma bind_notify_notified {X} t m ms kw (k : M (world U P) X) w :
  m ∈ ms →
  (∀ w1, pool w1 = pool w → is_Some (thread_local w1 !! t) →
         notified t ms w1 (k w1).1) →
  notified t ms w (bind (notify t m kw) (λ _, k) w).1.
Proof.
  intros Hm Hk. unfold bind.
  pose proof (notified_notify t m ms kw w Hm) as Hn.
  destruct (notify_frame t m kw w) as (Ht & Hp & _).
  destruct (notify t m kw w) as [w1 [[]|e]]; simpl in *; [|done].
  eapply notified_trans; [done|]. apply Hk; [done|].
  rewrite Ht, lookup_insert_eq. by eexists.
Qed.

(** Whatever the hooks do, pool-acquire calls callbacks of its own thread's
    hooks only, and no callback outside [ms] when [ms] has the two
    [malloc_*] callbacks and, without a cached block, the [alloc_*] ones. *)
Lemma malloc_notified A t size ms w :
  MallocPreprocess ∈ ms → MallocPostprocess ∈ ms →
  (find_cached_block A (round_size A size) (pool w) = None →
   AllocPreprocess ∈ ms ∧ AllocPostprocess ∈ ms) →
  notified t ms w (malloc A t size w).1.
Proof.
  intros Hpre Hpost Hmiss. unfold malloc.
  apply bind_notify_notified; [done|]. intros w1 Hp1 Hs1. rewrite Hp1.
  destruct (find_cached_block A (round_size A size) (pool w))
    as [[blk p]|] eqn:Hf.
  - apply (notified_from_set_pool _ _ _ _ p).
    apply bind_notify_notified; [done|]. intros w2 _ Hs2.
    by apply notified_refl.
  - destruct (Hmiss eq_refl) as [Hapre Hapost].
    apply bind_notify_notified; [done|]. intros w2 Hp2 Hs2.
    destruct (allocate_from_device A (device_id A) (round_size A size)
                (pool w2)) as [[ptr|] p].
    + destruct (wrap_pointer A ptr (round_size A size) p) as [blk p'].
      apply (notified_from_set_pool _ _ _ _ p').
      apply bind_notify_notified; [done|]. intros w3 _ Hs3.
      apply bind_notify_notified; [done|]. intros w4 _ Hs4.
      by apply notified_refl.
    + apply (notified_from_set_pool _ _ _ _ p).
      apply bind_notify_notified; [done|]. intros w3 _ Hs3.
      apply bind_notify_notified; [done|]. intros w4 _ Hs4.
      by apply notified_refl.
Qed.

Lemma free_notified A t blk w :
  notified t [FreePreprocess; FreePostprocess] w (free A t blk w).1.
Proof.
  unfold free. apply bind_notify_notified; [set_solver|].
  intros w1 _ Hs1. unfold bind at 1. simpl.
  apply (notified_from_set_pool _ _ _ _
           (release_block_to_pool A blk (pool w1))).
  apply notified_notify. set_solver.
Qed.

Lemma called_app (cs cs' : list (call U)) :
  called (cs ++ cs') = called cs ++ called cs'.
Proof. unfold called. apply fmap_app. Qed.

Lemma called_new_calls w w' cs :
  called (calls w') = called (calls w) ++ cs → called (new_calls w w') = cs.
Proof.
  unfold new_calls, called. intros H. rewrite fmap_drop, H.
  rewrite <- (length_fmap
    (λ c, (MemoryHook.name (call_hook c), call_method c)) (calls w)).
  by rewrite drop_app_length.
Qed.

(** One returning fan-out inside a sequence. *)
Lemma bind_notify_returns {X} t m kw (k : M (world U P) X) w :
  hooks_never_raise t w →
  ∃ w1, bind (notify t m kw) (λ _, k) w = k w1 ∧
        hooks_never_raise t w1 ∧ pool w1 = pool w ∧
        hook_names t w1 = hook_names t w ∧
        called (calls w1)
        = called (calls w) ++ phase_of m (hook_names t w).
Proof.
  intros Hok. destruct (notify_returns t m kw w Hok) as (Hr & Hc & Hok1).
  destruct (notify_frame t m kw w) as (_ & Hp & _).
  pose proof (notify_registry t m kw w t) as Hreg.
  exists (notify t m kw w).1. unfold bind, hook_names.
  destruct (notify t m kw w) as [w1 r]; simpl in *. subst r.
  rewrite Hreg, Hc, called_app, called_fan_out_calls. done.
Qed.

Ltac returning_fan_out Hok w1 Hok' Hp Hn Hc :=
  match goal with
  | |- context [bind (notify ?t ?m ?kw) (λ _, ?k) ?w'] =>
      destruct (bind_notify_returns t m kw k w' Hok)
        as (w1 & -> & Hok' & Hp & Hn & Hc);
      cbn [set_pool calls pool] in Hp, Hc;
      change (hook_names t (set_pool ?p ?w0)) with (hook_names t w0) in *
  end.

(** The calls of a pool-acquire none of whose callbacks raises. *)
Lemma malloc_calls_returning A t size w :
  hooks_never_raise t w →
  called (new_calls w (malloc A t size w).1)
  = match find_cached_block A (round_size A size) (pool w) with
    | Some _ => phase_of MallocPreprocess (hook_names t w)
                ++ phase_of MallocPostprocess (hook_names t w)
    | None => phase_of MallocPreprocess (hook_names t w)
              ++ phase_of AllocPreprocess (hook_names t w)
              ++ phase_of AllocPostprocess (hook_names t w)
              ++ phase_of MallocPostprocess (hook_names t w)
    end.
Proof.
  intros Hok. unfold malloc. cbv zeta.
  returning_fan_out Hok w1 Hok1 Hp1 Hn1 Hc1. rewrite Hp1.
  destruct (find_cached_block A (round_size A size) (pool w))
    as [[blk p]|] eqn:Hf.
  - returning_fan_out Hok1 w2 Hok2 Hp2 Hn2 Hc2. simpl.
    apply called_new_calls.
    rewrite Hc2, Hc1, Hn1. by rewrite <- app_assoc.
  - returning_fan_out Hok1 w2 Hok2 Hp2 Hn2 Hc2.
    destruct (allocate_from_device A (device_id A) (round_size A size)
                (pool w2)) as [[ptr|] p].
    + destruct (wrap_pointer A ptr (round_size A size) p) as [blk p'].
      returning_fan_out Hok2 w3 Hok3 Hp3 Hn3 Hc3.
      returning_fan_out Hok3 w4 Hok4 Hp4 Hn4 Hc4.
      simpl. apply called_new_calls.
      rewrite Hc4, Hn3, Hc3, Hn2, Hc2, Hn1, Hc1. by rewrite <- !app_assoc.
    + returning_fan_out Hok2 w3 Hok3 Hp3 Hn3 Hc3.
      returning_fan_out Hok3 w4 Hok4 Hp4 Hn4 Hc4.
      simpl. apply called_new_calls.
      rewrite Hc4, Hn3, Hc3, Hn2, Hc2, Hn1, Hc1. by rewrite <- !app_assoc.
Qed.

(** The calls of a pool-release none of whose callbacks raises. *)
Lemma free_calls_returning A t blk w :
  hooks_never_raise t w → release_visits_all A t blk w.
Proof.
  intros Hok. unfold release_visits_all, free. cbv zeta.
  returning_fan_out Hok w1 Hok1 Hp1 Hn1 Hc1. unfold bind at 1. cbn beta iota.
  pose proof (notify_returns t FreePostprocess
    [("device_id", device_id A); ("mem_size", mem_size blk);
     ("mem_ptr", mem_ptr blk); ("pmem_id", pmem_id blk)]
    (set_pool (release_block_to_pool A blk (pool w1)) w1) Hok1)
    as (_ & Hc2 & _).
  apply called_new_calls. rewrite Hc2, called_app, called_fan_out_calls.
  cbn [set_pool calls]. rewrite Hc1.
  change (MemoryHook.name <$> OrderedDict.values
            (registry_of t (set_pool (release_block_to_pool A blk (pool w1)) w1)))
    with (hook_names t w1).
  by rewrite Hn1, <- app_assoc.
Qed.
End call_site_facts.

(** ** Counting calls *)

Section counting.
Implicit Types (n : string) (m : callback_name) (names : list string)
  (cs : list (string * callback_name)).

Lemma invoked_app n m cs cs' :
  invoked n m (cs ++ cs') = (invoked n m cs + invoked n m cs')%nat.
Proof. unfold invoked. by rewrite filter_app, length_app. Qed.

Lemma invoked_phase_other n m m' names :
  m ≠ m' → invoked n m (phase_of m' names) = 0%nat.
Proof.
  intros Hne. unfold invoked, phase_of.
  induction names as [|n' names IH]; [done|]. simpl.
  rewrite filter_cons_False; [done|]. intros [= _ ?]. done.
Qed.

Lemma invoked_phase_absent n m names :
  n ∉ names → invoked n m (phase_of m names) = 0%nat.
Proof.
  unfold invoked, phase_of.
  induction names as [|n' names IH]; [done|]. simpl.
  rewrite not_elem_of_cons. intros [Hne Hnin].
  rewrite filter_cons_False; [by apply IH|]. intros [= ?]. done.
Qed.

Lemma invoked_phase_same n m names :
  NoDup names → n ∈ names → invoked n m (phase_of m names) = 1%nat.
Proof.
  induction names as [|n' names IH]; intros Hnd Hin.
  - by apply elem_of_nil in Hin.
  - apply NoDup_cons in Hnd as [Hnin Hnd].
    unfold invoked, phase_of in *. simpl.
    destruct (decide (n' = n)) as [->|Hne].
    + rewrite filter_cons_True; [|done]. simpl. f_equal.
      by apply invoked_phase_absent.
    + rewrite filter_cons_False; [|intros [= ?]; done].
      apply IH; [done|]. apply elem_of_cons in Hin as [?|?]; [done|done].
Qed.

Lemma phases_of_phase m names :
  phase <$> (phase_of m names).*2 = replicate (length names) (phase m).
Proof.
  unfold phase_of. induction names as [|n names IH]; [done|].
  simpl. f_equal. exact IH.
Qed.

Lemma sorted_replicate_app (k x : nat) (l : list nat) :
  StronglySorted le l → Forall (le x) l →
  StronglySorted le (replicate k x ++ l).
Proof.
  intros Hl Hx. induction k as [|k IH]; [done|]. simpl.
  apply SSorted_cons; [done|]. apply Forall_app. split; [|done].
  apply Forall_replicate. lia.
Qed.

Lemma acquire_phases_sorted names :
  StronglySorted le
    (phase <$> (phase_of MallocPreprocess names
                ++ phase_of AllocPreprocess names
                ++ phase_of AllocPostprocess names
                ++ phase_of MallocPostprocess names).*2).
Proof.
  rewrite !fmap_app, !phases_of_phase. simpl.
  apply sorted_replicate_app; [|repeat (apply Forall_app; split);
    apply Forall_replicate; lia].
  apply sorted_replicate_app; [|repeat (apply Forall_app; split);
    apply Forall_replicate; lia].
  apply sorted_replicate_app; [|apply Forall_replicate; lia].
  rewrite <- (app_nil_r (replicate _ _)).
  apply sorted_replicate_app; constructor.
Qed.
End counting.

Lemma hook_names_keys {U P} (t : nat) (w : world U P) :
  unique_names w →
  hook_names t w = OrderedDict.keys (registry_of t w) ∧
  NoDup (hook_names t w).
Proof.
  intros Hw. destruct (registry_ok_of t w Hw) as [Hnd Hk].
  assert (hook_names t w = OrderedDict.keys (registry_of t w)) as ->; [|done].
  unfold hook_names, OrderedDict.values, OrderedDict.keys.
  rewrite <- list_fmap_compose. apply Forall_fmap_ext_1.
  eapply Forall_impl; [exact Hk|]. by intros [k h].
Qed.

(** ** The protocol of pool-acquire *)

(** *** What a call went through *)

Section replay_facts.
Context {U P : Type}.
Implicit Types (w : world U P) (h : hook U) (t : nat) (m : callback_name)
  (kw : kwargs) (hs : list (hook U)) (A : allocator P).

Lemma replay_app (cs cs' : list (call U)) (u u' : U) :
  replay cs u = (u', None) → replay (cs ++ cs') u = replay cs' u'.
Proof.
  revert u. induction cs as [|c cs IH]; intros u; simpl.
  - by intros [= ->].
  - destruct (MemoryHook.method (call_hook c) (call_method c)
                (call_kwargs c) u) as [u1 [e|]]; [done|]. apply IH.
Qed.

Lemma replay_fan_out_cons t m kw h hs (u : U) :
  replay (fan_out_calls t m kw (h :: hs)) u
  = match MemoryHook.method h m kw u with
    | (u', Some e) => (u', Some e)
    | (u', None) => replay (fan_out_calls t m kw hs) u'
    end.
Proof. reflexivity. Qed.

Lemma fan_out_calls_cons t m kw h hs :
  fan_out_calls t m kw (h :: hs)
  = {| call_thread := t; call_hook := h; call_method := m;
       call_kwargs := kw |} :: fan_out_calls t m kw hs.
Proof. reflexivity. Qed.

(** A fan-out that returns has called all its hooks, none of which raised;
    one that raises has called the hooks up to the one that raised. *)
Lemma fan_out_replay t m kw hs w :
  match (fan_out t m kw hs w).2 with
  | Return _ =>
      calls (fan_out t m kw hs w).1 = calls w ++ fan_out_calls t m kw hs ∧
      replay (fan_out_calls t m kw hs) (obs w)
      = (obs (fan_out t m kw hs w).1, None)
  | Raise e =>
      ∃ n h u,
        hs !! n = Some h ∧
        calls (fan_out t m kw hs w).1
        = calls w ++ fan_out_calls t m kw (take (S n) hs) ∧
        replay (fan_out_calls t m kw (take n hs)) (obs w) = (u, None) ∧
        MemoryHook.method h m kw u = (obs (fan_out t m kw hs w).1, Some e)
  end.
Proof.
  revert w. induction hs as [|h hs IH]; intros w.
  - simpl. by rewrite app_nil_r.
  - cbn [fan_out]. cbn [log_call obs].
    destruct (MemoryHook.method h m kw (obs w)) as [u [e|]] eqn:Hm.
    + cbn [fst snd]. exists 0%nat, h, (obs w). by rewrite Hm.
    + match goal with |- context [fan_out t m kw hs ?w1] =>
        specialize (IH w1); destruct (fan_out t m kw hs w1) as [w2 [[]|e]]
      end; cbn [fst snd set_obs log_call obs calls] in *.
      * destruct IH as [Hc Hr].
        rewrite Hc, replay_fan_out_cons, Hm, fan_out_calls_cons.
        by rewrite <- app_assoc.
      * destruct IH as (n & h' & u' & Hl & Hc & Hr & Hh).
        exists (S n), h', u'. split_and!; [done| | |done].
        -- rewrite Hc, (firstn_cons (S n) h hs), fan_out_calls_cons.
           by rewrite <- app_assoc.
        -- by rewrite (firstn_cons n h hs), replay_fan_out_cons, Hm.
Qed.

Lemma notify_replay t m kw w :
  pool (notify t m kw w).1 = pool w ∧
  hook_names t (notify t m kw w).1 = hook_names t w ∧
  match (notify t m kw w).2 with
  | Return _ =>
      calls (notify t m kw w).1
      = calls w ++ fan_out_calls t m kw (OrderedDict.values (registry_of t w)) ∧
      replay (fan_out_calls t m kw (OrderedDict.values (registry_of t w)))
        (obs w)
      = (obs (notify t m kw w).1, None)
  | Raise e =>
      ∃ n h u,
        OrderedDict.values (registry_of t w) !! n = Some h ∧
        calls (notify t m kw w).1
        = calls w
          ++ fan_out_calls t m kw
               (take (S n) (OrderedDict.values (registry_of t w))) ∧
        replay (fan_out_calls t m kw
                  (take n (OrderedDict.values (registry_of t w)))) (obs w)
        = (u, None) ∧
        MemoryHook.method h m kw u = (obs (notify t m kw w).1, Some e)
  end.
Proof.
  split_and!.
  - by destruct (notify_frame t m kw w) as (_ & ? & _).
  - unfold hook_names. by rewrite notify_registry.
  - rewrite notify_run.
    apply (fan_out_replay t m kw (OrderedDict.values (registry_of t w))
             (set_thread_local <[t := registry_of t w]> w)).
Qed.

Lemma phase_prefix m (n : nat) hs (full : list (string * callback_name)) :
  phase_of m (MemoryHook.name <$> take n hs)
  `prefix_of` phase_of m (MemoryHook.name <$> hs) ++ full.
Proof.
  apply prefix_app_r. rewrite <- (take_drop n hs) at 2.
  unfold phase_of. rewrite !fmap_app. by eexists.
Qed.

Lemma fanned_out_ret {X} (x : X) w : fanned_out [] w (ret x w).
Proof.
  exists [], None. simpl. rewrite app_nil_r.
  split_and!; [done..|]. intros e. discriminate.
Qed.

Lemma fanned_out_raise {X} (e : exn) w :
  fanned_out (X := X) [] w (raise e w).
Proof.
  exists [], None. simpl. rewrite app_nil_r.
  split_and!; [done..|]. intros e'. discriminate.
Qed.

Lemma fanned_out_from_set_pool {X} full (p : P) w
  (res : world U P * result X) :
  fanned_out full (set_pool p w) res → fanned_out full w res.
Proof. done. Qed.

(** A fan-out followed by the rest of a call. *)
Lemma fanned_out_bind {X} t m kw (k : M (world U P) X) full w :
  (∀ w1, pool w1 = pool w → hook_names t w1 = hook_names t w →
         fanned_out full w1 (k w1)) →
  fanned_out (phase_of m (hook_names t w) ++ full) w
    (bind (notify t m kw) (λ _, k) w).
Proof.
  intros Hk. unfold bind.
  destruct (notify_replay t m kw w) as (Hp & Hn & Hr).
  destruct (notify t m kw w) as [w1 [[]|e]]; simpl in *.
  - destruct Hr as [Hc Hrep].
    destruct (Hk w1 Hp Hn) as (new & o & Hc2 & Hpre & Hrep2 & Hnone & Hsome).
    exists (fan_out_calls t m kw (OrderedDict.values (registry_of t w)) ++ new),
           o.
    split_and!.
    + by rewrite Hc2, Hc, app_assoc.
    + rewrite called_app, called_fan_out_calls. by apply prefix_app.
    + by rewrite (replay_app _ _ _ _ Hrep).
    + intros Ho. by rewrite called_app, called_fan_out_calls, (Hnone Ho).
    + intros e He. destruct (Hsome e He) as (Hres & cs & c & u & -> & Hcs & Hm).
      split; [done|].
      exists (fan_out_calls t m kw (OrderedDict.values (registry_of t w)) ++ cs),
             c, u.
      split_and!; [by rewrite app_assoc| |done].
      by rewrite (replay_app _ _ _ _ Hrep).
  - destruct Hr as (n & h & u & Hl & Hc & Hrep & Hm).
    exists (fan_out_calls t m kw
              (take (S n) (OrderedDict.values (registry_of t w)))),
           (Some e).
    split_and!; [done| | |discriminate|].
    + rewrite called_fan_out_calls. apply phase_prefix.
    + rewrite (take_S_r _ _ _ Hl). unfold fan_out_calls at 1.
      rewrite fmap_app. fold (fan_out_calls t m kw
        (take n (OrderedDict.values (registry_of t w)))).
      rewrite (replay_app _ _ _ _ Hrep). simpl. by rewrite Hm.
    + intros e' [= <-]. split; [done|].
      exists (fan_out_calls t m kw
                (take n (OrderedDict.values (registry_of t w)))),
             {| call_thread := t; call_hook := h; call_method := m;
                call_kwargs := kw |}, u.
      split_and!; [|done|simpl; by rewrite Hm].
      rewrite (take_S_r _ _ _ Hl). unfold fan_out_calls. by rewrite fmap_app.
Qed.

Lemma fanned_out_bind_last {X} t m kw (k : M (world U P) X) w :
  (∀ w1, pool w1 = pool w → hook_names t w1 = hook_names t w →
         fanned_out [] w1 (k w1)) →
  fanned_out (phase_of m (hook_names t w)) w
    (bind (notify t m kw) (λ _, k) w).
Proof.
  intros Hk. rewrite <- (app_nil_r (phase_of m (hook_names t w))).
  by apply fanned_out_bind.
Qed.

(** Pool-acquire goes through its sequence of callbacks until one raises. *)
Lemma malloc_fanned_out A t size w :
  fanned_out (acquire_sequence A t size w) w (malloc A t size w).
Proof.
  unfold malloc, acquire_sequence. cbv zeta.
  destruct (find_cached_block A (round_size A size) (pool w))
    as [[blk p]|] eqn:Hf.
  - apply fanned_out_bind. intros w1 Hp1 Hn1. rewrite Hp1, Hf, <- Hn1.
    apply (fanned_out_from_set_pool _ p).
    change (hook_names t w1) with (hook_names t (set_pool p w1)).
    apply fanned_out_bind_last. intros w2 _ _. apply fanned_out_ret.
  - apply fanned_out_bind. intros w1 Hp1 Hn1. rewrite Hp1, Hf, <- Hn1.
    apply fanned_out_bind. intros w2 Hp2 Hn2. rewrite <- Hn2.
    destruct (allocate_from_device A (device_id A) (round_size A size)
                (pool w2)) as [[ptr|] p].
    + destruct (wrap_pointer A ptr (round_size A size) p) as [blk p'].
      apply (fanned_out_from_set_pool _ p').
      change (hook_names t w2) with (hook_names t (set_pool p' w2)).
      apply fanned_out_bind. intros w3 Hp3 Hn3. rewrite <- Hn3.
      apply fanned_out_bind_last. intros w4 _ _. apply fanned_out_ret.
    + apply (fanned_out_from_set_pool _ p).
      change (hook_names t w2) with (hook_names t (set_pool p w2)).
      apply fanned_out_bind. intros w3 Hp3 Hn3. rewrite <- Hn3.
      apply fanned_out_bind_last. intros w4 _ _. apply fanned_out_raise.
Qed.
End replay_facts.

(** C2, as amended.  With a cached block, pool-acquire calls no [alloc_*]
    callback, whether or not a callback raises.  When no callback raises
    during the call (replaying the calls made, from the hook state at the
    start, ends without an exception), the calls are: [malloc_preprocess]
    of every registered hook, then (only without a cached block, and also
    when the device allocation fails) [alloc_preprocess] of every hook and
    [alloc_postprocess] of every hook, then [malloc_postprocess] of every
    hook; each of these once for every hook.  In every case the calls made
    are a prefix of that sequence, and the replay ends in the hook state
    the call ends in.  When a callback raises, the call ends there: it
    raises the exception of that callback, the callbacks before it had
    returned, and no callback is called after it. *)
Theorem pool_acquire_protocol {U P} (A : allocator P) (t : nat) (size : Z)
  (w : world U P) :
  (is_Some (find_cached_block A (round_size A size) (pool w)) →
   ∀ c, c ∈ new_calls w (malloc A t size w).1 →
        call_method c ≠ AllocPreprocess ∧
        call_method c ≠ AllocPostprocess) ∧
  (unique_names w →
   (replay (new_calls w (malloc A t size w).1) (obs w)).2 = None →
   acquire_follows_protocol A t size w ∧
   called (new_calls w (malloc A t size w).1) = acquire_sequence A t size w) ∧
  called (new_calls w (malloc A t size w).1)
  `prefix_of` acquire_sequence A t size w ∧
  (replay (new_calls w (malloc A t size w).1) (obs w)).1
  = obs (malloc A t size w).1 ∧
  (∀ e, (replay (new_calls w (malloc A t size w).1) (obs w)).2 = Some e →
        (malloc A t size w).2 = Raise e ∧
        ∃ cs c u,
          new_calls w (malloc A t size w).1 = cs ++ [c] ∧
          replay cs (obs w) = (u, None) ∧
          (MemoryHook.method (call_hook c) (call_method c)
             (call_kwargs c) u).2 = Some e).
Proof.
  destruct (malloc_fanned_out A t size w)
    as (new & o & Hc & Hpre & Hrep & Hnone & Hsome).
  rewrite (new_calls_app _ _ _ Hc), Hrep. cbn [fst snd].
  split_and!; [| |done|done|done].
  - intros [b Hb] c Hin.
    destruct (malloc_notified A t size [MallocPreprocess; MallocPostprocess] w)
      as (_ & new' & Hnew & Hall);
      [by left | by right; left | by rewrite Hb |].
    rewrite Hc in Hnew. apply app_inv_head in Hnew as <-.
    rewrite Forall_forall in Hall. destruct (Hall c Hin) as (_ & Hm & _).
    split; intros Heq; rewrite Heq in Hm;
      repeat (apply elem_of_cons in Hm as [Hm|Hm]; [discriminate|]);
      by apply elem_of_nil in Hm.
  - intros Hw Ho. pose proof (Hnone Ho) as Hfull. split; [|done].
    unfold acquire_follows_protocol. cbv zeta.
    rewrite (new_calls_app _ _ _ Hc), Hfull. unfold acquire_sequence.
    destruct (hook_names_keys t w Hw) as [_ Hnd].
    destruct (find_cached_block A (round_size A size) (pool w)).
    + split.
      * intros n. rewrite !invoked_app.
        by rewrite !invoked_phase_other.
      * intros n Hn. rewrite !invoked_app.
        rewrite !(invoked_phase_same _ _ _ Hnd Hn).
        by rewrite !invoked_phase_other.
    + split; [|apply acquire_phases_sorted].
      intros n Hn. rewrite !invoked_app.
      rewrite !(invoked_phase_same _ _ _ Hnd Hn).
      by rewrite !invoked_phase_other.
Qed.

Lemma pool_acquire_protocol_witness :
  (∀ c, c ∈ new_calls
              (world_with_cached_block [named_hook 1 "logger"])
              (malloc toy_allocator 0 100
                 (world_with_cached_block [named_hook 1 "logger"])).1 →
        call_method c ≠ AllocPreprocess ∧
        call_method c ≠ AllocPostprocess) ∧
  acquire_follows_protocol toy_allocator 0 100
    (world_with [named_hook 1 "logger";
                 raising_hook 2 "boom" FreePreprocess]) ∧
  (malloc toy_allocator 0 100
     (world_with [raising_hook 1 "boom" MallocPreprocess;
                  named_hook 2 "logger"])).2
  = Raise (HookCallbackError "boom").
Proof.
  split_and!.
  - apply (proj1 (pool_acquire_protocol toy_allocator 0 100
                    (world_with_cached_block [named_hook 1 "logger"]))).
    eexists. reflexivity.
  - refine (proj1 (proj1 (proj2 (pool_acquire_protocol toy_allocator 0 100
                            (world_with [named_hook 1 "logger";
                               raising_hook 2 "boom" FreePreprocess])))
                     _ _)).
    + unfold world_with. simpl. do 2 apply unique_names_enter.
      apply unique_names_initial.
    + reflexivity.
  - refine (proj1 (proj2 (proj2 (proj2 (proj2
              (pool_acquire_protocol toy_allocator 0 100
                 (world_with [raising_hook 1 "boom" MallocPreprocess;
                              named_hook 2 "logger"])))))
              (HookCallbackError "boom") _)).
    reflexivity.
Defined.

(** C2 as stated fails when a callback raises: the hook ["boom"] raises in
    [malloc_preprocess], the pool has no cached block, and no callback of
    the registered hook ["logger"] is called at all. *)
Lemma pool_acquire_raising_hook_counterexample :
  ¬ acquire_follows_protocol toy_allocator 0 100
      (world_with [raising_hook 1 "boom" MallocPreprocess;
                   named_hook 2 "logger"]).
Proof.
  unfold acquire_follows_protocol. cbv zeta.
  assert (find_cached_block toy_allocator (round_size toy_allocator 100)
            (pool (world_with [raising_hook 1 "boom" MallocPreprocess;
                               named_hook 2 "logger"])) = None) as ->
    by reflexivity.
  intros [H _].
  assert (Hin : "logger" ∈ hook_names 0
            (world_with [raising_hook 1 "boom" MallocPreprocess;
                         named_hook 2 "logger"])).
  { vm_compute. right. left. }
  destruct (H "logger" Hin) as (_ & _ & _ & Hpost).
  vm_compute in Hpost. discriminate.
Qed.

(** ** Threads and schedules *)

Section schedule_facts.
Context {U P : Type}.
Implicit Types (w : world U P) (h : hook U) (t : nat) (A : allocator P)
  (o : op (U := U)).

Lemma notified_slot_other t ms w w' t' :
  notified t ms w w' → t ≠ t' → thread_local w' !! t' = thread_local w !! t'.
Proof. intros [Ht _] Hne. by rewrite Ht, lookup_insert_ne. Qed.

Lemma unique_names_notified t ms w w' :
  notified t ms w w' → unique_names w → unique_names w'.
Proof.
  intros [Ht _] Hw t' d. rewrite Ht, lookup_insert.
  case_decide; [|apply Hw]. intros [= <-]. by apply registry_ok_of.
Qed.

Lemma malloc_notified_all A t size w :
  notified t [MallocPreprocess; AllocPreprocess; AllocPostprocess;
              MallocPostprocess] w (malloc A t size w).1.
Proof.
  apply malloc_notified; [|  |intros _; split];
    repeat first [by left | right].
Qed.

(** What one operation of thread [t] does to the registries: nothing that
    can be seen, or a new last entry, or the removal of one entry. *)
Lemma run_op_registry A t o w :
  (∀ t', t' ≠ t →
     thread_local (run_op A t o w).1 !! t' = thread_local w !! t') ∧
  ((∀ t', registry_of t' (run_op A t o w).1 = registry_of t' w) ∧
   (∀ h, o = Enter h → (run_op A t o w).2 = false)
   ∨ (∃ h, o = Enter h ∧ (run_op A t o w).2 = true ∧
           OrderedDict.get (MemoryHook.name h) (registry_of t w) = None ∧
           registry_of t (run_op A t o w).1
           = registry_of t w ++ [(MemoryHook.name h, h)])
   ∨ (∃ e d1 d2, (∀ h, o ≠ Enter h) ∧
           registry_of t w = d1 ++ e :: d2 ∧
           registry_of t (run_op A t o w).1 = d1 ++ d2)).
Proof.
  destruct o as [|h|h|size|blk]; unfold run_op; cbn [fst snd].
  - rewrite get_memory_hooks_run. cbn [fst snd]. split.
    + intros t' Hne. by apply slot_store_other.
    + left. split; [|done]. intros t'. unfold registry_of at 1. simpl.
      rewrite lookup_insert. case_decide; [by subst | done].
  - destruct (OrderedDict.get (MemoryHook.name h) (registry_of t w)) eqn:Hg.
    + rewrite (enter_taken _ _ _ _ Hg). cbn [fst snd].
      split; [done|]. left. done.
    + rewrite (enter_fresh _ _ _ Hg). cbn [fst snd]. split.
      * intros t' Hne. by apply slot_store_other.
      * right. left. exists h. by rewrite registry_of_store.
  - destruct (OrderedDict.get (MemoryHook.name h) (registry_of t w)) eqn:Hg.
    + destruct (exit_present _ _ _ _ Hg) as (d1 & d2 & Hd & _ & ->).
      cbn [fst snd]. split.
      * intros t' Hne. by apply slot_store_other.
      * right. right. exists (MemoryHook.name h, h0), d1, d2.
        by rewrite registry_of_store.
    + rewrite (exit_missing _ _ _ Hg). cbn [fst snd]. split.
      * intros t' Hne. by apply slot_store_other.
      * left. split; [|done]. intros t'. unfold registry_of at 1. simpl.
        rewrite lookup_insert. case_decide; [by subst | done].
  - pose proof (malloc_notified_all A t size w) as Hn. split.
    + intros t' Hne. by eapply notified_slot_other.
    + left. split; [|done]. intros t'. by eapply notified_registry.
  - pose proof (free_notified A t blk w) as Hn. split.
    + intros t' Hne. by eapply notified_slot_other.
    + left. split; [|done]. intros t'. by eapply notified_registry.
Qed.

Lemma registry_of_other t t' w w' :
  thread_local w' !! t' = thread_local w !! t' →
  registry_of t' w' = registry_of t' w.
Proof. unfold registry_of. by intros ->. Qed.

Lemma unique_names_run_op A t o w :
  unique_names w → unique_names (run_op A t o w).1.
Proof.
  intros Hw. destruct o as [|h|h|size|blk]; unfold run_op; cbn [fst snd].
  - by apply unique_names_get_memory_hooks.
  - by apply unique_names_enter.
  - by apply unique_names_exit.
  - eapply unique_names_notified; [apply malloc_notified_all | done].
  - eapply unique_names_notified; [apply free_notified | done].
Qed.

(** In every state a schedule can reach from the start, the names of each
    registry are pairwise distinct. *)
Lemma unique_names_run A sched w :
  unique_names w → unique_names (run A sched w).
Proof.
  revert w. induction sched as [|[t o] sched IH]; intros w Hw; simpl; [done|].
  apply IH. by apply unique_names_run_op.
Qed.

(** Threads other than [b] leave the slot of [b] alone. *)
Lemma run_slot_other A (b : nat) sched w :
  Forall (λ s, s.1 ≠ b) sched →
  thread_local (run A sched w) !! b = thread_local w !! b.
Proof.
  revert w. induction sched as [|[t o] sched IH]; intros w Hs; simpl; [done|].
  apply Forall_cons in Hs as [Hne Hs]. rewrite (IH _ Hs).
  by apply run_op_registry.
Qed.

(** The calls of one operation are calls of its thread to hooks of its
    thread's registry. *)
Lemma run_op_calls A t o w c :
  c ∈ new_calls w (run_op A t o w).1 →
  call_thread c = t ∧ call_hook c ∈ OrderedDict.values (registry_of t w).
Proof.
  assert (Hnone : ∀ w', calls w' = calls w → c ∈ new_calls w w' → False).
  { intros w' Hc. rewrite (new_calls_same _ _ Hc). apply not_elem_of_nil. }
  assert (Hnot : ∀ ms w', notified t ms w w' → c ∈ new_calls w w' →
            call_thread c = t ∧
            call_hook c ∈ OrderedDict.values (registry_of t w)).
  { intros ms w' (_ & new & Hnew & Hall). rewrite (new_calls_app _ _ _ Hnew).
    rewrite Forall_forall in Hall. intros Hc.
    by destruct (Hall c Hc) as (? & _ & ?). }
  destruct o as [|h|h|size|blk]; unfold run_op; cbn [fst snd]; intros Hc.
  - exfalso. revert Hc. apply Hnone. by rewrite get_memory_hooks_run.
  - exfalso. revert Hc. apply Hnone.
    destruct (OrderedDict.get (MemoryHook.name h) (registry_of t w)) eqn:Hg.
    + by rewrite (enter_taken _ _ _ _ Hg).
    + by rewrite (enter_fresh _ _ _ Hg).
  - exfalso. revert Hc. apply Hnone.
    destruct (OrderedDict.get (MemoryHook.name h) (registry_of t w)) eqn:Hg.
    + by destruct (exit_present _ _ _ _ Hg) as (d1 & d2 & _ & _ & ->).
    + by rewrite (exit_missing _ _ _ Hg).
  - eapply Hnot; [apply malloc_notified_all | done].
  - eapply Hnot; [apply free_notified | done].
Qed.
End schedule_facts.

(** ** Registration order *)

Section stamp_facts.
Context {U P : Type}.
Implicit Types (w : world U P) (h : hook U) (t : nat) (A : allocator P)
  (o : op (U := U)) (s : stamps).

Lemma run_stamped_run A sched now s w :
  (run_stamped A sched now s w).1 = run A sched w.
Proof.
  revert now s w. induction sched as [|[t o] sched IH]; intros now s w;
    simpl; [done|].
  destruct (run_op A t o w) as [w' r]. apply IH.
Qed.

Lemma stamp_fresh_keys t k now s (ks : list string) :
  k ∉ ks → stamp t k now s t <$> ks = s t <$> ks.
Proof.
  intros Hk. apply Forall_fmap_ext_1, Forall_forall. intros k' Hin.
  unfold stamp. case_decide as Heq; [|done]. destruct Heq as [_ ->]. done.
Qed.

Lemma stamp_other_thread t t' k now s (ks : list string) :
  t' ≠ t → stamp t k now s t' <$> ks = s t' <$> ks.
Proof.
  intros Hne. apply Forall_fmap_ext_1, Forall_forall. intros k' Hin.
  unfold stamp. case_decide as Heq; [|done]. destruct Heq as [? _]. done.
Qed.

Lemma in_order_later s now w :
  registered_in_order s now w → registered_in_order s (S now) w.
Proof.
  intros H t. destruct (H t) as [Hs Hb]. split; [done|].
  eapply Forall_impl; [exact Hb|]. simpl. lia.
Qed.

Lemma in_order_same_registries s now w w' :
  (∀ t, registry_of t w' = registry_of t w) →
  registered_in_order s now w → registered_in_order s now w'.
Proof. intros Hr H t. rewrite Hr. apply H. Qed.

(** One operation keeps every registry in the order of registration. *)
Lemma registered_in_order_step A t o s now w :
  registered_in_order s now w →
  registered_in_order
    (match o with
     | Enter h => if (run_op A t o w).2
                  then stamp t (MemoryHook.name h) now s else s
     | _ => s
     end) (S now) (run_op A t o w).1.
Proof.
  intros Hin. destruct (run_op_registry A t o w) as [Hother Hcases].
  destruct Hcases as [[Hsame Hfail]|[(h & -> & Hret & Hg & Hreg)
                                    |(e & d1 & d2 & Hne & Hd & Hreg)]].
  - assert (match o with
            | Enter h => if (run_op A t o w).2
                         then stamp t (MemoryHook.name h) now s else s
            | _ => s
            end = s) as ->.
    { destruct o as [|h0| | |]; try done. by rewrite (Hfail _ eq_refl). }
    apply in_order_later. by apply (in_order_same_registries s now w).
  - rewrite Hret. apply get_None_keys in Hg. intros t'.
    destruct (decide (t' = t)) as [->|Hne].
    + rewrite Hreg. unfold OrderedDict.keys in *. rewrite fmap_app. simpl.
      destruct (Hin t) as [Hs Hb]. split.
      * rewrite fmap_app, (stamp_fresh_keys _ _ _ _ _ Hg). simpl.
        apply StronglySorted_app. split_and!; [|done|repeat constructor].
        intros x1 x2 Hx1 ->%list_elem_of_singleton.
        apply list_elem_of_fmap in Hx1 as (k & -> & Hk).
        rewrite Forall_forall in Hb. unfold stamp.
        rewrite decide_True; [|done]. by apply Hb.
      * apply Forall_app. split.
        -- rewrite Forall_forall in Hb. apply Forall_forall. intros k Hk.
           unfold stamp. case_decide; [lia|]. specialize (Hb k Hk). lia.
        -- apply Forall_singleton. unfold stamp.
           rewrite decide_True; [lia|done].
    + rewrite (registry_of_other t t' w _ (Hother t' Hne)).
      destruct (Hin t') as [Hs Hb]. split.
      * by rewrite stamp_other_thread.
      * rewrite Forall_forall in Hb. apply Forall_forall. intros k Hk.
        unfold stamp. case_decide as Heq; [by destruct Heq|].
        specialize (Hb k Hk). lia.
  - assert (match o with
            | Enter h => if (run_op A t o w).2
                         then stamp t (MemoryHook.name h) now s else s
            | _ => s
            end = s) as ->.
    { destruct o as [|h0| | |]; try done. by destruct (Hne h0). }
    apply in_order_later. intros t'.
    destruct (decide (t' = t)) as [->|Hne'].
    + rewrite Hreg. destruct (Hin t) as [Hs Hb]. rewrite Hd in Hs, Hb.
      unfold OrderedDict.keys in *. rewrite fmap_app in *.
      rewrite fmap_cons in Hs, Hb. rewrite fmap_app in *.
      rewrite fmap_cons in Hs.
      apply StronglySorted_app in Hs as (Hlt & Hs1 & Hs2).
      apply StronglySorted_cons in Hs2 as [_ Hs2].
      apply Forall_app in Hb as [Hb1 Hb2].
      apply Forall_cons in Hb2 as [_ Hb2]. split.
      * apply StronglySorted_app. split_and!; [|done..].
        intros x1 x2 Hx1 Hx2. apply Hlt; [done|]. by right.
      * by apply Forall_app.
    + rewrite (registry_of_other t t' w _ (Hother t' Hne')). apply Hin.
Qed.

Lemma registered_in_order_run A sched now s w :
  registered_in_order s now w →
  registered_in_order (run_stamped A sched now s w).2
    (now + length sched) (run_stamped A sched now s w).1.
Proof.
  revert now s w. induction sched as [|[t o] sched IH]; intros now s w Hin;
    simpl.
  - by rewrite Nat.add_0_r.
  - pose proof (registered_in_order_step A t o s now w Hin) as Hstep.
    destruct (run_op A t o w) as [w' r]. cbn [fst snd] in Hstep.
    rewrite Nat.add_succ_r. by apply (IH (S now)).
Qed.

Lemma registered_in_order_initial (p : P) (u : U) :
  registered_in_order (λ _ _, 0%nat) 0 (initial_world p u).
Proof.
  intros t. unfold registry_of. simpl. rewrite lookup_empty. simpl.
  split; constructor.
Qed.
End stamp_facts.

(** ** The order of the fan-out *)

(** C5, as amended.  A fan-out calls the hooks registered on the calling
    thread in the order the registry iterates, the same for the pre- and
    the post-callbacks: all of them when it returns, and the hooks up to
    the one whose callback raised when it raises.  When no callback of the
    registered hooks raises, every
    fan-out of pool-acquire and of pool-release goes through all the hooks
    in that order.  In every state a schedule reaches from the start, every
    registry lists its names by the time of their registration, earliest
    first. *)
Theorem fan_out_follows_registration_order {U P} (A : allocator P) :
  (∀ t m kw (w : world U P),
     ∃ n, new_calls w (notify t m kw w).1
          = fan_out_calls t m kw
              (take n (OrderedDict.values (registry_of t w))) ∧
          ((notify t m kw w).2 = Return tt → fan_out_visits_all t m kw w) ∧
          (∀ e, (notify t m kw w).2 = Raise e →
                (0 < n)%nat ∧
                ∃ h u,
                  OrderedDict.values (registry_of t w) !! pred n = Some h ∧
                  (MemoryHook.method h m kw u).2 = Some e)) ∧
  (∀ t (w : world U P),
     hooks_never_raise t w →
     (∀ m kw, fan_out_visits_all t m kw w) ∧
     (∀ blk, release_visits_all A t blk w) ∧
     (∀ size,
        called (new_calls w (malloc A t size w).1)
        = match find_cached_block A (round_size A size) (pool w) with
          | Some _ => phase_of MallocPreprocess (hook_names t w)
                      ++ phase_of MallocPostprocess (hook_names t w)
          | None => phase_of MallocPreprocess (hook_names t w)
                    ++ phase_of AllocPreprocess (hook_names t w)
                    ++ phase_of AllocPostprocess (hook_names t w)
                    ++ phase_of MallocPostprocess (hook_names t w)
          end)) ∧
  (∀ sched (p : P) (u : U),
     (run_stamped A sched 0 (λ _ _, 0%nat) (initial_world p u)).1
     = run A sched (initial_world p u) ∧
     registered_in_order
       (run_stamped A sched 0 (λ _ _, 0%nat) (initial_world p u)).2
       (length sched) (run A sched (initial_world p u))).
Proof.
  split_and!.
  - intros t m kw w.
    destruct (notify_frame t m kw w) as (_ & _ & n & Hc & Hn & He).
    exists n. split_and!; [by apply new_calls_app| |done].
    intros Hr. unfold fan_out_visits_all.
    rewrite (new_calls_app _ _ _ Hc), (Hn Hr). by rewrite firstn_all.
  - intros t w Hok. split_and!.
    + intros m kw. destruct (notify_returns t m kw w Hok) as (_ & Hc & _).
      by apply new_calls_app.
    + intros blk. by apply free_calls_returning.
    + intros size. by apply malloc_calls_returning.
  - intros sched p u. split; [apply run_stamped_run|].
    rewrite <- (run_stamped_run A sched 0 (λ _ _, 0%nat)).
    apply (registered_in_order_run A sched 0).
    apply registered_in_order_initial.
Qed.

Lemma fan_out_follows_registration_order_witness :
  fan_out_visits_all 0 FreePreprocess [("device_id", 0)]
    (world_with [named_hook 1 "logger";
                 recording_hook 2 "tracer" FreePostprocess]) ∧
  called (new_calls
            (world_with [named_hook 1 "logger";
                         recording_hook 2 "tracer" FreePostprocess])
            (free toy_allocator 0
               {| mem_ptr := 4096; mem_size := 512; pmem_id := 1 |}
               (world_with [named_hook 1 "logger";
                            recording_hook 2 "tracer" FreePostprocess])).1)
  = [("logger", FreePreprocess); ("tracer", FreePreprocess);
     ("logger", FreePostprocess); ("tracer", FreePostprocess)].
Proof.
  split.
  - destruct (proj1 (fan_out_follows_registration_order toy_allocator)
                0%nat FreePreprocess [("device_id", 0)]
                (world_with [named_hook 1 "logger";
                             recording_hook 2 "tracer" FreePostprocess]))
      as (n & _ & Hall & _).
    apply Hall. reflexivity.
  - refine (proj1 (proj2 (proj1 (proj2
              (fan_out_follows_registration_order toy_allocator))
              0%nat (world_with [named_hook 1 "logger";
                                 recording_hook 2 "tracer" FreePostprocess])
              _))
            {| mem_ptr := 4096; mem_size := 512; pmem_id := 1 |}).
    intros h Hin m kw u. vm_compute in Hin.
    apply elem_of_cons in Hin as [->|Hin].
    { by destruct m. }
    apply elem_of_cons in Hin as [->|Hin].
    { by destruct m. }
    by apply elem_of_nil in Hin.
Defined.

(** C5 as stated fails when a callback raises: the hook ["boom"] raises in
    [free_preprocess], and the hook ["logger"], registered after it, is
    not called by either fan-out of the pool-release. *)
Lemma pool_release_raising_hook_counterexample :
  ¬ release_visits_all toy_allocator 0
      {| mem_ptr := 4096; mem_size := 512; pmem_id := 1 |}
      (world_with [raising_hook 1 "boom" FreePreprocess;
                   named_hook 2 "logger"]).
Proof.
  unfold release_visits_all. vm_compute. discriminate.
Qed.

(** ** Threads *)

(** C6.  An operation of thread [a] (creating its registry, registering,
    unregistering, pool-acquire and pool-release with their fan-outs)
    leaves the slot of any other thread [b] as it is, and so does any
    schedule of operations of threads other than [b]; an operation of
    thread [b] calls only hooks of [b]'s own registry, on thread [b], hence
    never a hook that is registered on another thread only. *)
Theorem threads_do_not_interfere {U P} (A : allocator P) (a b : nat)
  (w : world U P) :
  a ≠ b →
  (∀ o, thread_local (run_op A a o w).1 !! b = thread_local w !! b ∧
        registry_of b (run_op A a o w).1 = registry_of b w) ∧
  (∀ sched, Forall (λ s, s.1 ≠ b) sched →
            thread_local (run A sched w) !! b = thread_local w !! b ∧
            registry_of b (run A sched w) = registry_of b w) ∧
  (∀ o c, c ∈ new_calls w (run_op A b o w).1 →
          call_thread c = b ∧
          call_hook c ∈ OrderedDict.values (registry_of b w)) ∧
  (∀ h, h ∈ OrderedDict.values (registry_of a w) →
        h ∉ OrderedDict.values (registry_of b w) →
        ∀ o c, c ∈ new_calls w (run_op A b o w).1 → call_hook c ≠ h).
Proof.
  intros Hne. split_and!.
  - intros o. destruct (run_op_registry A a o w) as [Hother _].
    pose proof (Hother b ltac:(done)) as Hb. split; [done|].
    by apply (registry_of_other a).
  - intros sched Hs. pose proof (run_slot_other A b sched w Hs) as Hb.
    split; [done|]. by apply (registry_of_other a).
  - intros o c. apply run_op_calls.
  - intros h _ Hnot o c Hc Heq.
    destruct (run_op_calls A b o w c Hc) as [_ Hin]. by rewrite Heq in Hin.
Qed.

Lemma threads_do_not_interfere_witness :
  registry_of 1
    (run_op toy_allocator 0 (Exit (named_hook 1 "logger"))
       (run toy_allocator [(1%nat, Enter (named_hook 2 "tracer"))]
          (world_with [named_hook 1 "logger"]))).1
  = [("tracer", named_hook 2 "tracer")].
Proof.
  rewrite (proj2 (proj1 (threads_do_not_interfere toy_allocator 0 1
                    (run toy_allocator [(1%nat, Enter (named_hook 2 "tracer"))]
                       (world_with [named_hook 1 "logger"]))
                    ltac:(discriminate))
                  (Exit (named_hook 1 "logger")))).
  reflexivity.
Defined.

(** ** The scenarios of the module's documentation *)

(** No cached block: the four callbacks, once each, in order, with the
    requested and the rounded size. *)
Example acquire_without_cached_block :
  let w := world_with [named_hook 1 "logger"] in
  called (new_calls w (malloc toy_allocator 0 100 w).1)
  = [("logger", MallocPreprocess); ("logger", AllocPreprocess);
     ("logger", AllocPostprocess); ("logger", MallocPostprocess)] ∧
  call_kwargs <$> new_calls w (malloc toy_allocator 0 100 w).1
  = [[("device_id", 0); ("size", 100); ("mem_size", 512)];
     [("device_id", 0); ("mem_size", 512)];
     [("device_id", 0); ("mem_size", 512); ("mem_ptr", 4096)];
     [("device_id", 0); ("size", 100); ("mem_size", 512);
      ("mem_ptr", 4096); ("pmem_id", 1)]].
Proof. split; reflexivity. Qed.

(** The block is back in the pool: only the [malloc_*] callbacks. *)
Example acquire_with_cached_block :
  let w := world_with_cached_block [named_hook 1 "logger"] in
  called (new_calls w (malloc toy_allocator 0 100 w).1)
  = [("logger", MallocPreprocess); ("logger", MallocPostprocess)].
Proof. reflexivity. Qed.

(** The device is exhausted: the post-callbacks still run, with 0 for the
    pointer, and the allocation error is raised. *)
Example acquire_on_exhausted_device :
  let w := world_with [named_hook 1 "logger"] in
  (malloc toy_allocator 0 5000 w).2 = Raise AllocationExhaustionError ∧
  called (new_calls w (malloc toy_allocator 0 5000 w).1)
  = [("logger", MallocPreprocess); ("logger", AllocPreprocess);
     ("logger", AllocPostprocess); ("logger", MallocPostprocess)].
Proof. split; reflexivity. Qed.

(** ** More on the dictionary *)

Section odict_more.
Context {V : Type}.
Implicit Types (d : OrderedDict.t V) (k : string) (v : V).

Lemma discard_cons k k' v d :
  discard k ((k', v) :: d)
  = if decide (k = k') then d else (k', v) :: discard k d.
Proof.
  unfold discard. simpl. destruct (decide (k = k')); [done|].
  by destruct (OrderedDict.delitem k d).
Qed.

Lemma get_discard_ne k k' d :
  k ≠ k' → OrderedDict.get k (discard k' d) = OrderedDict.get k d.
Proof.
  intros Hne. induction d as [|[k0 v0] d IH]; [done|].
  rewrite discard_cons. destruct (decide (k' = k0)) as [->|Hne'].
  - simpl. by rewrite decide_False.
  - simpl. destruct (decide (k = k0)); [done | exact IH].
Qed.

Lemma discard_comm k k' d :
  k ≠ k' → discard k (discard k' d) = discard k' (discard k d).
Proof.
  intros Hne. induction d as [|[k0 v0] d IH]; [done|].
  rewrite !discard_cons.
  destruct (decide (k' = k0)) as [->|Hne'], (decide (k = k0)) as [->|Hne''];
    try done.
  - rewrite discard_cons. by rewrite decide_True.
  - rewrite discard_cons. by rewrite decide_True.
  - rewrite !discard_cons, decide_False, decide_False by done. by rewrite IH.
Qed.

Lemma discard_sublist k d : discard k d `sublist_of` d.
Proof.
  induction d as [|[k0 v0] d IH]; [done|].
  rewrite discard_cons. destruct (decide (k = k0)).
  - by apply sublist_cons.
  - by apply sublist_skip.
Qed.

Lemma discard_length k d :
  length (discard k d)
  = match OrderedDict.get k d with
    | Some _ => pred (length d)
    | None => length d
    end.
Proof.
  induction d as [|[k0 v0] d IH]; [done|].
  rewrite discard_cons. simpl. destruct (decide (k = k0)); [done|].
  simpl. rewrite IH. destruct (OrderedDict.get k d) eqn:Hg; [|done].
  destruct d; [done | done].
Qed.

Lemma delitem_is_Some k d :
  is_Some (OrderedDict.delitem k d) ↔ is_Some (OrderedDict.get k d).
Proof.
  split.
  - intros [d' Hd]. destruct (OrderedDict.get k d) eqn:Hg; [by eexists|].
    by rewrite (delitem_missing _ _ Hg) in Hd.
  - intros [v Hg]. destruct (delitem_present _ _ _ Hg) as (? & ? & _ & _ & ->).
    by eexists.
Qed.

Lemma get_app_other k k' v d :
  k ≠ k' → OrderedDict.get k (d ++ [(k', v)]) = OrderedDict.get k d.
Proof.
  intros Hne. induction d as [|[k0 v0] d IH]; simpl.
  - by rewrite decide_False.
  - destruct (decide (k = k0)); [done | exact IH].
Qed.
End odict_more.

(** ** More on registration and unregistration *)

Section more_registry_facts.
Context {U P : Type}.
Implicit Types (w : world U P) (h : hook U) (t : nat)
  (d : OrderedDict.t (hook U)).

Lemma exit_run t h w :
  __exit__ t h w
  = (set_thread_local
       <[t := discard (MemoryHook.name h) (registry_of t w)]> w,
     match OrderedDict.get (MemoryHook.name h) (registry_of t w) with
     | Some _ => Return tt
     | None => Raise (KeyError (MemoryHook.name h))
     end).
Proof.
  destruct (OrderedDict.get (MemoryHook.name h) (registry_of t w)) eqn:Hg.
  - destruct (delitem_present _ _ _ Hg) as (d1 & d2 & _ & _ & Hdel).
    unfold __exit__, bind. rewrite get_memory_hooks_run, Hdel.
    unfold store, discard. by rewrite Hdel, store_twice.
  - rewrite (exit_missing _ _ _ Hg). unfold discard.
    by rewrite (delitem_missing _ _ Hg).
Qed.

Lemma enter_run t h w :
  __enter__ t h w
  = match OrderedDict.get (MemoryHook.name h) (registry_of t w) with
    | Some _ => (w, Raise (DuplicateNameError (MemoryHook.name h)))
    | None => (set_thread_local
                 <[t := registry_of t w ++ [(MemoryHook.name h, h)]]> w,
               Return h)
    end.
Proof.
  destruct (OrderedDict.get (MemoryHook.name h) (registry_of t w)) eqn:Hg.
  - by apply enter_taken with h0.
  - by apply enter_fresh.
Qed.

Lemma agree_off_refl t w : agree_off t w w.
Proof. by split_and!. Qed.

Lemma agree_off_store t d w : agree_off t w (set_thread_local <[t := d]> w).
Proof. split_and!; try done. intros t' Hne. by apply slot_store_other. Qed.

Lemma agree_off_trans t w1 w2 w3 :
  agree_off t w1 w2 → agree_off t w2 w3 → agree_off t w1 w3.
Proof.
  intros (H1 & H2 & H3 & H4) (H1' & H2' & H3' & H4'). split_and!; try congruence.
  intros t' Hne. by rewrite H1', H1.
Qed.

Lemma get_without_entry (k : string) (h : hook U) d1 d2 :
  registry_ok (d1 ++ (k, h) :: d2) → OrderedDict.get k (d1 ++ d2) = None.
Proof.
  intros [Hnd _]. apply get_None_keys. unfold OrderedDict.keys in *.
  rewrite fmap_app in *. simpl in Hnd.
  apply NoDup_app in Hnd as (_ & Hnot & Hnd2).
  apply NoDup_cons in Hnd2 as [Hk2 _].
  rewrite elem_of_app. intros [Hin|Hin]; [|done].
  apply (Hnot k Hin). left.
Qed.

Lemma with_hook_run {X} t h (body : hook U → M (world U P) X) w w2 r :
  OrderedDict.get (MemoryHook.name h) (registry_of t w) = None →
  body h (set_thread_local
            <[t := registry_of t w ++ [(MemoryHook.name h, h)]]> w)
  = (w2, r) →
  registry_of t w2 = registry_of t w ++ [(MemoryHook.name h, h)] →
  with_hook t h body w = (set_thread_local <[t := registry_of t w]> w2, r).
Proof.
  intros Hg Hb Hd. unfold with_hook. rewrite (enter_fresh _ _ _ Hg), Hb.
  rewrite exit_run, Hd, (get_app_fresh _ _ _ Hg). unfold discard.
  by rewrite (delitem_last _ _ _ Hg).
Qed.
End more_registry_facts.

(** ** The scope of a registration *)

(** C3, as amended.  For a hook whose name is free on the thread,
    [with h: body] puts the hook last in the thread's registry and runs
    the body; however the body ends, returning or raising, [__exit__] runs
    on the state the body left and deletes what is under the hook's name
    there, and the statement ends the way the body did unless [__exit__]
    itself raises.  When the body hands the registry back as it got it
    (what it registers it also unregisters), the thread's registry after
    the statement is the one from before it and nothing else differs from
    what the body left; [__exit__] right after [__enter__] is the identity
    on the registry. *)
Theorem scoped_registration_restores_registry {U P X} (t : nat) (h : hook U)
  (body : hook U → M (world U P) X) (w : world U P) :
  OrderedDict.get (MemoryHook.name h) (registry_of t w) = None →
  ∃ w1,
    __enter__ t h w = (w1, Return h) ∧
    registry_of t w1 = registry_of t w ++ [(MemoryHook.name h, h)] ∧
    (∀ t', t' ≠ t → thread_local w1 !! t' = thread_local w !! t') ∧
    (__exit__ t h w1).2 = Return tt ∧
    registry_of t (__exit__ t h w1).1 = registry_of t w ∧
    ∀ w2 r, body h w1 = (w2, r) →
      with_hook t h body w
      = ((__exit__ t h w2).1,
         match (__exit__ t h w2).2 with
         | Return _ => r
         | Raise e => Raise e
         end) ∧
      registry_of t (with_hook t h body w).1
      = discard (MemoryHook.name h) (registry_of t w2) ∧
      (registry_of t w2 = registry_of t w1 →
       (with_hook t h body w).2 = r ∧
       registry_of t (with_hook t h body w).1 = registry_of t w ∧
       agree_off t w2 (with_hook t h body w).1).
Proof.
  intros Hg.
  exists (set_thread_local
            <[t := registry_of t w ++ [(MemoryHook.name h, h)]]> w).
  pose proof (registry_of_store t
                (registry_of t w ++ [(MemoryHook.name h, h)]) w) as Hd1.
  assert (Hdel : discard (MemoryHook.name h)
                   (registry_of t w ++ [(MemoryHook.name h, h)])
                 = registry_of t w).
  { unfold discard. by rewrite (delitem_last _ _ _ Hg). }
  split_and!.
  - by apply enter_fresh.
  - done.
  - intros t' Hne. by apply slot_store_other.
  - by rewrite exit_run, Hd1, (get_app_fresh _ _ _ Hg).
  - rewrite exit_run. cbn [fst]. by rewrite registry_of_store, Hd1.
  - intros w2 r Hb.
    assert (Hrun : with_hook t h body w
                   = ((__exit__ t h w2).1,
                      match (__exit__ t h w2).2 with
                      | Return _ => r
                      | Raise e => Raise e
                      end)).
    { unfold with_hook. rewrite (enter_fresh _ _ _ Hg), Hb.
      by destruct (__exit__ t h w2) as [w3 [[]|e]]. }
    rewrite Hrun, exit_run. cbn [fst snd]. rewrite registry_of_store.
    split_and!; [done..|]. intros Hd. rewrite Hd, Hd1, Hdel.
    rewrite (get_app_fresh _ _ _ Hg). split_and!; [done..|].
    apply agree_off_store.
Qed.

Lemma scoped_registration_restores_registry_witness :
  registry_of 0
    (with_hook (X := unit) 0 (named_hook 2 "tracer")
       (λ _, raise (HookCallbackError "failure in the block"))
       (world_with [named_hook 1 "logger"])).1
  = [("logger", named_hook 1 "logger")] ∧
  (with_hook (X := unit) 0 (named_hook 2 "tracer")
     (λ _, raise (HookCallbackError "failure in the block"))
     (world_with [named_hook 1 "logger"])).2
  = Raise (HookCallbackError "failure in the block").
Proof.
  destruct (scoped_registration_restores_registry (X := unit) 0
              (named_hook 2 "tracer")
              (λ _, raise (HookCallbackError "failure in the block"))
              (world_with [named_hook 1 "logger"]) eq_refl)
    as (w1 & He & _ & _ & _ & _ & Hbody).
  destruct (Hbody w1 (Raise (HookCallbackError "failure in the block"))
              eq_refl) as (_ & _ & Hsame).
  destruct (Hsame eq_refl) as (Hr & Hreg & _).
  split; [exact Hreg | exact Hr].
Defined.

(** C3 as stated fails for a block that changes the registry itself: the
    block enters the hook ["other"] and does not leave it, and after the
    statement ["other"] is still registered next to ["logger"]. *)
Lemma scope_with_leaking_block_counterexample :
  ¬ scope_restores_registry 0 (named_hook 2 "tracer")
      (λ _, __enter__ 0 (named_hook 3 "other"))
      (world_with [named_hook 1 "logger"]).
Proof.
  intros H. specialize (H eq_refl). vm_compute in H. discriminate.
Qed.

(** X1.  [get_memory_hooks] creates the thread's dictionary once: the
    dictionary it returns is the one now stored for the thread, a second
    call returns the same dictionary and changes nothing, and a call on a
    thread that has its dictionary changes nothing at all. *)
Theorem get_memory_hooks_creates_once {U P} (t : nat) (w : world U P) :
  get_memory_hooks t (get_memory_hooks t w).1 = get_memory_hooks t w ∧
  (∃ d, (get_memory_hooks t w).2 = Return d ∧
        thread_local (get_memory_hooks t w).1 !! t = Some d) ∧
  (thread_local w !! t = None → (get_memory_hooks t w).2 = Return []) ∧
  (is_Some (thread_local w !! t) → (get_memory_hooks t w).1 = w).
Proof.
  split_and!.
  - rewrite (get_memory_hooks_run t w). cbn [fst].
    rewrite get_memory_hooks_run, registry_of_store. by rewrite store_twice.
  - exists (registry_of t w). by destruct (get_memory_hooks_spec t w) as (? & _ & ?).
  - intros Hn. unfold get_memory_hooks. by rewrite Hn.
  - intros [d Hd]. unfold get_memory_hooks. by rewrite Hd.
Qed.

Lemma get_memory_hooks_creates_once_witness :
  (get_memory_hooks 1 (world_with [named_hook 1 "logger"])).2 = Return [] ∧
  (get_memory_hooks 0 (world_with [named_hook 1 "logger"])).1
  = world_with [named_hook 1 "logger"].
Proof.
  destruct (get_memory_hooks_creates_once 1
              (world_with [named_hook 1 "logger"])) as (_ & _ & H1 & _).
  destruct (get_memory_hooks_creates_once 0
              (world_with [named_hook 1 "logger"])) as (_ & _ & _ & H2).
  split; [apply H1; reflexivity | apply H2; eexists; reflexivity].
Defined.

(** X2.  [__enter__] returns the hook exactly when its name is free on the
    thread, and raises the duplicate-name [KeyError] exactly when it is
    taken; it has no other outcome. *)
Theorem enter_outcome {U P} (t : nat) (h : hook U) (w : world U P) :
  ((__enter__ t h w).2 = Return h ↔
   OrderedDict.get (MemoryHook.name h) (registry_of t w) = None) ∧
  ((__enter__ t h w).2 = Raise (DuplicateNameError (MemoryHook.name h)) ↔
   is_Some (OrderedDict.get (MemoryHook.name h) (registry_of t w))).
Proof.
  rewrite enter_run.
  destruct (OrderedDict.get (MemoryHook.name h) (registry_of t w)) eqn:Hg;
    simpl; split; split; done.
Qed.

Lemma enter_outcome_witness :
  (__enter__ 0 (named_hook 2 "tracer") (world_with [named_hook 1 "logger"])).2
  = Return (named_hook 2 "tracer") ∧
  (__enter__ 0 (named_hook 2 "logger") (world_with [named_hook 1 "logger"])).2
  = Raise (DuplicateNameError "logger").
Proof.
  split.
  - apply (proj1 (enter_outcome 0 (named_hook 2 "tracer")
                    (world_with [named_hook 1 "logger"]))).
    reflexivity.
  - apply (proj2 (enter_outcome 0 (named_hook 2 "logger")
                    (world_with [named_hook 1 "logger"]))).
    eexists. reflexivity.
Defined.

(** X3.  [__enter__] never removes, replaces or moves an entry: the
    registry before the call is a prefix of the registry after it and the
    other names read as before; when it returns, the hook is the last entry
    and is found under its name. *)
Theorem enter_keeps_entries {U P} (t : nat) (h : hook U) (w : world U P) :
  registry_of t w `prefix_of` registry_of t (__enter__ t h w).1 ∧
  (∀ k, k ≠ MemoryHook.name h →
        OrderedDict.get k (registry_of t (__enter__ t h w).1)
        = OrderedDict.get k (registry_of t w)) ∧
  ((__enter__ t h w).2 = Return h →
   registry_of t (__enter__ t h w).1
   = registry_of t w ++ [(MemoryHook.name h, h)] ∧
   OrderedDict.get (MemoryHook.name h) (registry_of t (__enter__ t h w).1)
   = Some h).
Proof.
  rewrite enter_run.
  destruct (OrderedDict.get (MemoryHook.name h) (registry_of t w)) eqn:Hg;
    cbn [fst snd].
  - split_and!; [done|done|discriminate].
  - rewrite registry_of_store. split_and!.
    + by eexists.
    + intros k Hk. by apply get_app_other.
    + intros _. split; [done | by apply get_app_fresh].
Qed.

Lemma enter_keeps_entries_witness :
  OrderedDict.get "logger"
    (registry_of 0
       (__enter__ 0 (named_hook 2 "tracer")
          (world_with [named_hook 1 "logger"])).1)
  = Some (named_hook 1 "logger") ∧
  registry_of 0
    (__enter__ 0 (named_hook 2 "tracer")
       (world_with [named_hook 1 "logger"])).1
  = [("logger", named_hook 1 "logger"); ("tracer", named_hook 2 "tracer")].
Proof.
  destruct (enter_keeps_entries 0 (named_hook 2 "tracer")
              (world_with [named_hook 1 "logger"])) as (_ & Hk & Hr).
  split.
  - rewrite (Hk "logger"); [reflexivity | discriminate].
  - exact (proj1 (Hr eq_refl)).
Defined.

(** X4.  [__exit__] returns exactly when the hook's name is registered on
    the thread and raises [KeyError(name)] exactly when it is not.  In both
    cases what is left is a sublist of the registry (nothing added, nothing
    moved), the other names read as before, and the registry is one entry
    shorter when the call returned. *)
Theorem exit_outcome_and_effect {U P} (t : nat) (h : hook U) (w : world U P) :
  ((__exit__ t h w).2 = Return tt ↔
   is_Some (OrderedDict.get (MemoryHook.name h) (registry_of t w))) ∧
  ((__exit__ t h w).2 = Raise (NotFoundError (MemoryHook.name h)) ↔
   OrderedDict.get (MemoryHook.name h) (registry_of t w) = None) ∧
  registry_of t (__exit__ t h w).1 `sublist_of` registry_of t w ∧
  (∀ k, k ≠ MemoryHook.name h →
        OrderedDict.get k (registry_of t (__exit__ t h w).1)
        = OrderedDict.get k (registry_of t w)) ∧
  ((__exit__ t h w).2 = Return tt →
   S (length (registry_of t (__exit__ t h w).1))
   = length (registry_of t w)).
Proof.
  rewrite exit_run. cbn [fst snd]. rewrite registry_of_store.
  split_and!.
  - destruct (OrderedDict.get _ _); split; done.
  - destruct (OrderedDict.get _ _); split; done.
  - apply discard_sublist.
  - intros k Hk. by apply get_discard_ne.
  - rewrite discard_length.
    destruct (OrderedDict.get _ _) eqn:Hg; [|discriminate]. intros _.
    destruct (registry_of t w); [done | done].
Qed.

Lemma exit_outcome_and_effect_witness :
  (__exit__ 0 (named_hook 1 "logger")
     (world_with [named_hook 1 "logger"; named_hook 2 "tracer"])).2
  = Return tt ∧
  OrderedDict.get "tracer"
    (registry_of 0
       (__exit__ 0 (named_hook 1 "logger")
          (world_with [named_hook 1 "logger"; named_hook 2 "tracer"])).1)
  = Some (named_hook 2 "tracer").
Proof.
  destruct (exit_outcome_and_effect 0 (named_hook 1 "logger")
              (world_with [named_hook 1 "logger"; named_hook 2 "tracer"]))
    as (Hr & _ & _ & Hk & _).
  split.
  - apply Hr. eexists. reflexivity.
  - rewrite (Hk "tracer"); [reflexivity | discriminate].
Defined.

(** X5.  Hooks of different names can be left in any order: the two
    orders of [__exit__] end in the same state, and whether one [__exit__]
    returns or raises does not depend on the other having run. *)
Theorem exits_commute {U P} (t : nat) (h1 h2 : hook U) (w : world U P) :
  MemoryHook.name h1 ≠ MemoryHook.name h2 →
  (__exit__ t h2 (__exit__ t h1 w).1).1
  = (__exit__ t h1 (__exit__ t h2 w).1).1 ∧
  (__exit__ t h2 (__exit__ t h1 w).1).2 = (__exit__ t h2 w).2 ∧
  (__exit__ t h1 (__exit__ t h2 w).1).2 = (__exit__ t h1 w).2.
Proof.
  intros Hne. rewrite !(exit_run t _ w). cbn [fst snd].
  rewrite !exit_run, !registry_of_store. cbn [fst snd].
  rewrite !store_twice.
  rewrite (get_discard_ne _ _ _ Hne).
  rewrite (get_discard_ne (MemoryHook.name h2) (MemoryHook.name h1)) by done.
  split_and!; [|done..]. by rewrite discard_comm.
Qed.

Lemma exits_commute_witness :
  registry_of 0
    (__exit__ 0 (named_hook 1 "logger")
       (__exit__ 0 (named_hook 2 "tracer")
          (world_with [named_hook 1 "logger"; named_hook 2 "tracer";
                       named_hook 3 "timer"])).1).1
  = [("timer", named_hook 3 "timer")].
Proof.
  rewrite <- (proj1 (exits_commute 0 (named_hook 1 "logger")
                       (named_hook 2 "tracer")
                       (world_with [named_hook 1 "logger";
                                    named_hook 2 "tracer";
                                    named_hook 3 "timer"])
                       ltac:(discriminate))).
  reflexivity.
Defined.

(** X6.  Leaving a registered hook and entering it again succeeds and puts
    it last: the entries before and after it keep their order and the hook
    comes after all of them. *)
Theorem reentering_moves_hook_last {U P} (t : nat) (h h' : hook U)
  (w : world U P) :
  unique_names w →
  OrderedDict.get (MemoryHook.name h) (registry_of t w) = Some h' →
  (__exit__ t h w).2 = Return tt ∧
  (__enter__ t h (__exit__ t h w).1).2 = Return h ∧
  ∃ d1 d2,
    registry_of t w = d1 ++ (MemoryHook.name h, h') :: d2 ∧
    registry_of t (__enter__ t h (__exit__ t h w).1).1
    = d1 ++ d2 ++ [(MemoryHook.name h, h)].
Proof.
  intros Hw Hg.
  destruct (exit_present _ _ _ _ Hg) as (d1 & d2 & Hd & _ & Hex).
  assert (Hfree : OrderedDict.get (MemoryHook.name h) (d1 ++ d2) = None).
  { apply (get_without_entry _ h'). rewrite <- Hd. by apply registry_ok_of. }
  rewrite Hex. cbn [fst snd]. rewrite enter_run, registry_of_store, Hfree.
  cbn [fst snd]. rewrite registry_of_store.
  split_and!; [done..|]. exists d1, d2. by rewrite <- app_assoc.
Qed.

Lemma reentering_moves_hook_last_witness :
  (__enter__ 0 (named_hook 1 "logger")
     (__exit__ 0 (named_hook 1 "logger")
        (world_with [named_hook 1 "logger"; named_hook 2 "tracer"])).1).2
  = Return (named_hook 1 "logger") ∧
  registry_of 0
    (__enter__ 0 (named_hook 1 "logger")
       (__exit__ 0 (named_hook 1 "logger")
          (world_with [named_hook 1 "logger"; named_hook 2 "tracer"])).1).1
  = [("tracer", named_hook 2 "tracer"); ("logger", named_hook 1 "logger")].
Proof.
  split; [|reflexivity].
  refine (proj1 (proj2 (reentering_moves_hook_last 0 (named_hook 1 "logger")
              (named_hook 1 "logger")
              (world_with [named_hook 1 "logger"; named_hook 2 "tracer"])
              _ _))).
  - unfold world_with. simpl. do 2 apply unique_names_enter.
    apply unique_names_initial.
  - reflexivity.
Defined.

(** X7.  A [with] statement on a hook whose name is taken raises the
    duplicate-name [KeyError] without running its body and without running
    [__exit__]: the state is the one before the statement, so the hook
    registered under the name stays registered. *)
Theorem with_on_taken_name_changes_nothing {U P X} (t : nat) (h h' : hook U)
  (body : hook U → M (world U P) X) (w : world U P) :
  OrderedDict.get (MemoryHook.name h) (registry_of t w) = Some h' →
  with_hook t h body w = (w, Raise (DuplicateNameError (MemoryHook.name h))).
Proof.
  intros Hg. unfold with_hook. by rewrite (enter_taken _ _ _ _ Hg).
Qed.

Lemma with_on_taken_name_changes_nothing_witness :
  with_hook 0 (named_hook 2 "logger") (λ h, __exit__ 0 h)
    (world_with [named_hook 1 "logger"])
  = (world_with [named_hook 1 "logger"],
     Raise (KeyError "memory hook logger already exists")).
Proof.
  apply (with_on_taken_name_changes_nothing 0 (named_hook 2 "logger")
           (named_hook 1 "logger")).
  reflexivity.
Defined.

(** X8.  [with h1, ..., hn: body] for hooks of pairwise different names,
    all free on the thread: the body starts with the hooks appended to the
    registry in the order written and nothing else changed; when the body
    hands the registry back as it got it, the statement ends the way the
    body did (returning or raising), the thread's registry is the one from
    before the statement, and everything else is as the body left it. *)
Theorem nested_scopes_restore_registry {U P X} (t : nat)
  (hs : list (hook U)) (body : M (world U P) X) (w : world U P) :
  NoDup (MemoryHook.name <$> hs) →
  (∀ h, h ∈ hs →
        OrderedDict.get (MemoryHook.name h) (registry_of t w) = None) →
  ∃ w1,
    registry_of t w1 = registry_of t w ++ entries hs ∧
    agree_off t w w1 ∧
    ∀ w2 r, body w1 = (w2, r) → registry_of t w2 = registry_of t w1 →
      ∃ w3, with_hooks t hs body w = (w3, r) ∧
            registry_of t w3 = registry_of t w ∧
            agree_off t w2 w3.
Proof.
  revert w. induction hs as [|h hs IH]; intros w Hnd Hfree.
  - exists w. split_and!.
    + unfold entries. simpl. by rewrite app_nil_r.
    + apply agree_off_refl.
    + intros w2 r Hb Hd. exists w2. split_and!; [done..|apply agree_off_refl].
  - rewrite fmap_cons in Hnd. apply NoDup_cons in Hnd as [Hh Hnd].
    pose proof (Hfree h ltac:(left)) as Hg.
    set (wa := set_thread_local
                 <[t := registry_of t w ++ [(MemoryHook.name h, h)]]> w).
    destruct (IH wa Hnd) as (w1 & Hreg1 & Hag1 & Hbody).
    { intros h0 Hin. unfold wa. rewrite registry_of_store.
      rewrite get_app_other; [apply Hfree; by right|].
      intros Heq. apply Hh. rewrite <- Heq. by apply list_elem_of_fmap_2. }
    exists w1. split_and!.
    + rewrite Hreg1. unfold wa. rewrite registry_of_store.
      by rewrite <- app_assoc.
    + eapply agree_off_trans; [apply agree_off_store | exact Hag1].
    + intros w2 r Hb Hd. destruct (Hbody w2 r Hb Hd) as (w3 & Hrun & Hreg3 & Hag3).
      exists (set_thread_local <[t := registry_of t w]> w3). split_and!.
      * simpl. apply with_hook_run; [done|exact Hrun|].
        rewrite Hreg3. unfold wa. by rewrite registry_of_store.
      * apply registry_of_store.
      * eapply agree_off_trans; [exact Hag3 | apply agree_off_store].
Qed.

Lemma nested_scopes_restore_registry_witness :
  (with_hooks (X := unit) 0 [named_hook 2 "tracer"; named_hook 3 "timer"]
     (raise (HookCallbackError "failure in the block"))
     (world_with [named_hook 1 "logger"])).2
  = Raise (HookCallbackError "failure in the block") ∧
  registry_of 0
    (with_hooks (X := unit) 0 [named_hook 2 "tracer"; named_hook 3 "timer"]
       (raise (HookCallbackError "failure in the block"))
       (world_with [named_hook 1 "logger"])).1
  = [("logger", named_hook 1 "logger")].
Proof.
  destruct (nested_scopes_restore_registry (X := unit) 0
              [named_hook 2 "tracer"; named_hook 3 "timer"]
              (raise (HookCallbackError "failure in the block"))
              (world_with [named_hook 1 "logger"]))
    as (w1 & _ & _ & Hbody).
  - simpl. apply NoDup_cons. split; [|apply NoDup_singleton].
    intros Hin%list_elem_of_singleton. discriminate.
  - intros h Hin. apply elem_of_cons in Hin as [->|Hin]; [reflexivity|].
    apply elem_of_cons in Hin as [->|Hin]; [reflexivity|].
    by apply elem_of_nil in Hin.
  - destruct (Hbody w1 (Raise (HookCallbackError "failure in the block"))
                eq_refl eq_refl) as (w3 & Hrun & Hreg & _).
    rewrite Hrun. split; [reflexivity | exact Hreg].
Defined.

(** X9.  Creating the registry, registering and unregistering call no
    callback and touch neither the pool, nor the state of the hooks, nor
    the dictionary of another thread, whether they return or raise. *)
Theorem registry_operations_touch_own_dictionary_only {U P} (t : nat)
  (h : hook U) (w : world U P) :
  agree_off t w (get_memory_hooks t w).1 ∧
  agree_off t w (__enter__ t h w).1 ∧
  agree_off t w (__exit__ t h w).1.
Proof.
  split_and!.
  - rewrite get_memory_hooks_run. apply agree_off_store.
  - rewrite enter_run. destruct (OrderedDict.get _ _);
      [apply agree_off_refl | apply agree_off_store].
  - rewrite exit_run. apply agree_off_store.
Qed.

(** X10.  A hook, or a name, can be active on several threads at once:
    entering a hook on thread [a] does not change whether it can be entered
    on another thread [b], and after both calls it is registered on
    both. *)
Theorem same_hook_on_two_threads {U P} (a b : nat) (h : hook U)
  (w : world U P) :
  a ≠ b →
  OrderedDict.get (MemoryHook.name h) (registry_of a w) = None →
  OrderedDict.get (MemoryHook.name h) (registry_of b w) = None →
  (__enter__ a h w).2 = Return h ∧
  (__enter__ b h (__enter__ a h w).1).2 = Return h ∧
  OrderedDict.get (MemoryHook.name h)
    (registry_of a (__enter__ b h (__enter__ a h w).1).1) = Some h ∧
  OrderedDict.get (MemoryHook.name h)
    (registry_of b (__enter__ b h (__enter__ a h w).1).1) = Some h.
Proof.
  intros Hne Ha Hb. rewrite (enter_fresh _ _ _ Ha). cbn [fst snd].
  assert (Hb' : OrderedDict.get (MemoryHook.name h)
                  (registry_of b
                     (set_thread_local
                        <[a := registry_of a w ++ [(MemoryHook.name h, h)]]> w))
                = None).
  { rewrite (registry_of_other a b w); [done|]. by apply slot_store_other. }
  rewrite (enter_fresh _ _ _ Hb'). cbn [fst snd].
  rewrite registry_of_store. split_and!; [done..| |by apply get_app_fresh].
  rewrite (registry_of_other b a
             (set_thread_local
                <[a := registry_of a w ++ [(MemoryHook.name h, h)]]> w));
    [|by apply slot_store_other].
  rewrite registry_of_store. by apply get_app_fresh.
Qed.

Lemma same_hook_on_two_threads_witness :
  (__enter__ 1 (named_hook 2 "tracer")
     (__enter__ 0 (named_hook 2 "tracer")
        (world_with [named_hook 1 "logger"])).1).2
  = Return (named_hook 2 "tracer").
Proof.
  apply (same_hook_on_two_threads 0 1 (named_hook 2 "tracer")
           (world_with [named_hook 1 "logger"]));
    [discriminate | reflexivity | reflexivity].
Defined.

(** X11.  Entering a hook whose name is free and leaving it at once is the
    same as only asking for the registry: the state is the one
    [get_memory_hooks] leaves, which is the state before when the thread
    had its dictionary. *)
Theorem enter_then_exit_is_get_memory_hooks {U P} (t : nat) (h : hook U)
  (w : world U P) :
  OrderedDict.get (MemoryHook.name h) (registry_of t w) = None →
  __exit__ t h (__enter__ t h w).1 = ((get_memory_hooks t w).1, Return tt) ∧
  (is_Some (thread_local w !! t) → (__exit__ t h (__enter__ t h w).1).1 = w).
Proof.
  intros Hg.
  assert (Hrun : __exit__ t h (__enter__ t h w).1
                 = ((get_memory_hooks t w).1, Return tt)).
  { rewrite (enter_fresh _ _ _ Hg). cbn [fst snd].
    rewrite exit_run, registry_of_store, (get_app_fresh _ _ _ Hg).
    unfold discard. rewrite (delitem_last _ _ _ Hg). simpl.
    by rewrite store_twice, get_memory_hooks_run. }
  split; [done|]. intros [d Hd]. rewrite Hrun. cbn [fst].
  unfold get_memory_hooks. by rewrite Hd.
Qed.

Lemma enter_then_exit_is_get_memory_hooks_witness :
  (__exit__ 0 (named_hook 2 "tracer")
     (__enter__ 0 (named_hook 2 "tracer")
        (world_with [named_hook 1 "logger"])).1).1
  = world_with [named_hook 1 "logger"].
Proof.
  apply (enter_then_exit_is_get_memory_hooks 0 (named_hook 2 "tracer")
           (world_with [named_hook 1 "logger"]) eq_refl).
  eexists. reflexivity.
Defined.

(** Every registry operation of thread [t] stores a dictionary computed
    from the thread's registry and ends in a way decided by it. *)
Lemma run_registry_op_store {U P} (t : nat) (o : registry_op U) :
  ∃ (F : OrderedDict.t (hook U) → OrderedDict.t (hook U))
    (G : OrderedDict.t (hook U) → option exn),
    ∀ w : world U P,
      run_registry_op t o w
      = (set_thread_local <[t := F (registry_of t w)]> w,
         G (registry_of t w)).
Proof.
  destruct o as [|h|h]; unfold run_registry_op.
  - exists (λ d, d), (λ _, None). intros w. by rewrite get_memory_hooks_run.
  - exists (λ d, match OrderedDict.get (MemoryHook.name h) d with
                 | Some _ => d
                 | None => d ++ [(MemoryHook.name h, h)]
                 end),
           (λ d, match OrderedDict.get (MemoryHook.name h) d with
                 | Some _ => Some (DuplicateNameError (MemoryHook.name h))
                 | None => None
                 end).
    intros w. rewrite enter_run.
    destruct (OrderedDict.get (MemoryHook.name h) (registry_of t w)) eqn:Hg;
      [|done].
    cbn [fst snd]. f_equal. symmetry. apply store_same.
    unfold registry_of in *. by destruct (thread_local w !! t).
  - exists (discard (MemoryHook.name h)),
           (λ d, match OrderedDict.get (MemoryHook.name h) d with
                 | Some _ => None
                 | None => Some (KeyError (MemoryHook.name h))
                 end).
    intros w. rewrite exit_run. cbn [fst snd].
    by destruct (OrderedDict.get (MemoryHook.name h) (registry_of t w)).
Qed.

(** X12.  Registry operations of two different threads commute: done in
    either order they end in the same state, and each returns or raises as
    it would have without the other. *)
Theorem registry_operations_of_threads_commute {U P} (a b : nat)
  (o1 o2 : registry_op U) (w : world U P) :
  a ≠ b →
  (run_registry_op b o2 (run_registry_op a o1 w).1).1
  = (run_registry_op a o1 (run_registry_op b o2 w).1).1 ∧
  (run_registry_op b o2 (run_registry_op a o1 w).1).2
  = (run_registry_op b o2 w).2 ∧
  (run_registry_op a o1 (run_registry_op b o2 w).1).2
  = (run_registry_op a o1 w).2.
Proof.
  intros Hne.
  destruct (run_registry_op_store (P := P) a o1) as (F1 & G1 & H1).
  destruct (run_registry_op_store (P := P) b o2) as (F2 & G2 & H2).
  rewrite (H1 w), (H2 w). cbn [fst snd]. rewrite H1, H2. cbn [fst snd].
  rewrite (registry_of_other a b w
             (set_thread_local <[a := F1 (registry_of a w)]> w))
    by (by apply slot_store_other).
  rewrite (registry_of_other b a w
             (set_thread_local <[b := F2 (registry_of b w)]> w))
    by (by apply slot_store_other).
  split_and!; [|done..].
  apply world_eq; simpl; try done. by apply insert_insert_ne.
Qed.

Lemma registry_operations_of_threads_commute_witness :
  (run_registry_op 1 (EnterHook (named_hook 2 "logger"))
     (run_registry_op 0 (ExitHook (named_hook 1 "logger"))
        (world_with [named_hook 1 "logger"])).1).1
  = (run_registry_op 0 (ExitHook (named_hook 1 "logger"))
       (run_registry_op 1 (EnterHook (named_hook 2 "logger"))
          (world_with [named_hook 1 "logger"])).1).1.
Proof.
  apply (registry_operations_of_threads_commute 0 1). discriminate.
Defined.
